(** * Verification of [moments.py]: robust scatter estimate and weighted means

    The numeric code is embedded over the real numbers: every NumPy
    [float64] is an exact real, so rounding and overflow are out of that
    model.  What the code can observe besides a finite value is kept:
    Python exceptions are an explicit [outcome], and the IEEE special
    values that exact arithmetic can still reach (a division by zero, the
    [nan] that [scoreatpercentile] returns for an empty array) are the
    extra constructors of [npfloat].  The theorems over the reals state
    which value the code computes; the value it returns is that one up to
    rounding.

    Whether two returned numbers are equal bit for bit is not a question
    for the reals.  For such questions the two weighted means are
    embedded once more in IEEE binary64 (module [Binary64]), where they
    are evaluated on concrete arrays. *)

From Stdlib Require Import Reals List Lra Lia Permutation Sorted ZArith Arith Bool.
From Stdlib Require Import Zify ZifyNat.
From Stdlib Require PrimFloat.
Import ListNotations.
Open Scope R_scope.

(** ** Python exceptions *)

Inductive exn : Type :=
| IndexError
| ValueError
| LinAlgError.

Inductive outcome (A : Type) : Type :=
| Ok (a : A)
| Raise (e : exn).
Arguments Ok {A} a.
Arguments Raise {A} e.

Definition bind {A B : Type} (m : outcome A) (k : A -> outcome B) : outcome B :=
  match m with
  | Ok a => k a
  | Raise e => Raise e
  end.

Notation "x <- m ;; k" := (bind m (fun x => k))
  (at level 61, m at next level, right associativity).

Definition raises {A : Type} (m : outcome A) : Prop := exists e, m = Raise e.

(** ** Floats: exact reals plus the IEEE specials *)

Inductive npfloat : Type :=
| Num (r : R)
| PosInf
| NegInf
| NaN.

Definition Rpos_dec (r : R) : bool := if Rlt_dec 0 r then true else false.
Definition Rzero_dec (r : R) : bool := if Req_dec_T r 0 then true else false.

Definition inf_of_sign (positive : bool) : npfloat :=
  if positive then PosInf else NegInf.

Definition fneg (a : npfloat) : npfloat :=
  match a with
  | Num r => Num (- r)
  | PosInf => NegInf
  | NegInf => PosInf
  | NaN => NaN
  end.

Definition fadd (a b : npfloat) : npfloat :=
  match a, b with
  | NaN, _ | _, NaN => NaN
  | Num r, Num s => Num (r + s)
  | PosInf, NegInf | NegInf, PosInf => NaN
  | PosInf, _ | _, PosInf => PosInf
  | NegInf, _ | _, NegInf => NegInf
  end.

Definition fsub (a b : npfloat) : npfloat := fadd a (fneg b).

Definition fmul_inf (positive : bool) (r : R) : npfloat :=
  if Rzero_dec r then NaN else inf_of_sign (Bool.eqb positive (Rpos_dec r)).

Definition fmul (a b : npfloat) : npfloat :=
  match a, b with
  | NaN, _ | _, NaN => NaN
  | Num r, Num s => Num (r * s)
  | PosInf, Num r | Num r, PosInf => fmul_inf true r
  | NegInf, Num r | Num r, NegInf => fmul_inf false r
  | PosInf, PosInf | NegInf, NegInf => PosInf
  | PosInf, NegInf | NegInf, PosInf => NegInf
  end.

(** Division by a zero gives an infinity of the sign of the numerator, and
    [nan] for 0/0 (NumPy warns and goes on).  The real zero stands for
    [+0.0]. *)
Definition fdiv (a b : npfloat) : npfloat :=
  match a, b with
  | NaN, _ | _, NaN => NaN
  | Num r, Num s =>
      if Rzero_dec s
      then (if Rzero_dec r then NaN else inf_of_sign (Rpos_dec r))
      else Num (r / s)
  | Num _, (PosInf | NegInf) => Num 0
  | PosInf, Num s => inf_of_sign (orb (Rzero_dec s) (Rpos_dec s))
  | NegInf, Num s => inf_of_sign (negb (orb (Rzero_dec s) (Rpos_dec s)))
  | (PosInf | NegInf), (PosInf | NegInf) => NaN
  end.

Definition fsqrt (a : npfloat) : npfloat :=
  match a with
  | Num r => if Rlt_dec r 0 then NaN else Num (sqrt r)
  | PosInf => PosInf
  | NegInf | NaN => NaN
  end.

(** ** One-dimensional arrays *)

Definition np_sum (l : list R) : R := fold_right Rplus 0 l.

Definition fsum (l : list npfloat) : npfloat := fold_right fadd (Num 0) l.

Fixpoint zip_with {A B C : Type} (f : A -> B -> C) (a : list A) (b : list B) : list C :=
  match a, b with
  | u :: a', v :: b' => f u v :: zip_with f a' b'
  | _, _ => []
  end.

(** Elementwise binary operation on two 1-D arrays with NumPy's
    broadcasting: equal lengths, or one side of length one. *)
Definition broadcast {A B C : Type} (f : A -> B -> C) (a : list A) (b : list B)
  : outcome (list C) :=
  if Nat.eqb (length a) (length b) then Ok (zip_with f a b)
  else match a, b with
       | [u], _ => Ok (map (f u) b)
       | _, [v] => Ok (map (fun u => f u v) a)
       | _, _ => Raise ValueError
       end.

(** [a[i:j]] for [0 <= i]: the bounds are clipped to the array. *)
Definition slice {A : Type} (a : list A) (i j : nat) : list A :=
  firstn (j - i) (skipn i a).

(** [np.sort]: the ascending arrangement of the values (written as an
    insertion sort; the arrangement does not depend on the algorithm). *)
Fixpoint insert_sorted (a : R) (l : list R) : list R :=
  match l with
  | [] => [a]
  | b :: l' => if Rle_dec a b then a :: l else b :: insert_sorted a l'
  end.

Fixpoint np_sort (l : list R) : list R :=
  match l with
  | [] => []
  | a :: l' => insert_sorted a (np_sort l')
  end.

(** [int(r)] on a float: truncation towards zero. *)
Definition py_int (r : R) : Z :=
  if Rle_dec 0 r then Int_part r else (- Int_part (- r))%Z.

(** ** [scipy.stats.scoreatpercentile]

    A library function, not part of the module: its implementation is
    transcribed on the path that [rse] takes ([limit=()],
    [interpolation_method='fraction'], [axis=None], a scalar [per]).  An
    empty array gives [nan]; otherwise the sorted array is indexed at the
    fractional rank [per/100 * (n - 1)] and the two neighbours are
    weighted.  The index [i] is never negative there, so the slices are
    taken at [Z.to_nat i]. *)

Definition _compute_qth_percentile (sorted_ : list R) (per : R) : outcome npfloat :=
  if andb (if Rle_dec 0 per then true else false)
          (if Rle_dec per 100 then true else false)
  then
    let idx := per / 100 * (INR (length sorted_) - 1) in
    let i := py_int idx in
    if Req_dec_T (IZR i) idx then
      let sumval := 1 in
      Ok (fdiv (Num (np_sum (map (fun v => v * 1)
                                 (slice sorted_ (Z.to_nat i) (Z.to_nat (i + 1))))))
               (Num sumval))
    else
      let j := (i + 1)%Z in
      let weights := [IZR j - idx; idx - IZR i] in
      let sumval := np_sum weights in
      prod <- broadcast Rmult (slice sorted_ (Z.to_nat i) (Z.to_nat (i + 2))) weights ;;
      Ok (fdiv (Num (np_sum prod)) (Num sumval))
  else Raise ValueError.

Definition scoreatpercentile (a : list R) (per : R) : outcome npfloat :=
  if Nat.eqb (length a) 0 then Ok NaN
  else
    let sorted_ := np_sort a in
    _compute_qth_percentile sorted_ per.

(** ** [moments.py] *)

Section RobustScatter.

(** [scipy.special.erfinv], the inverse error function: a library function
    the module only evaluates at 0.8. *)
Variable erfinv : R -> R.

Definition _rse_constant : npfloat :=
  fdiv (Num 1) (Num (sqrt 2 * 2 * erfinv 0.8)).

Definition rse (x : list R) : outcome npfloat :=
  p90 <- scoreatpercentile x 90 ;;
  p10 <- scoreatpercentile x 10 ;;
  Ok (fmul _rse_constant (fsub p90 p10)).

End RobustScatter.

(** [weighted_mean_oned]: [1 / sx * sx] parses as [(1 / sx) * sx] and
    [x / sx * sx] as [(x / sx) * sx]. *)
Definition weighted_mean_oned (x sx : list R) : outcome (npfloat * npfloat) :=
  let inv_sx := map (fun s => fdiv (Num 1) (Num s)) sx in
  ones <- broadcast fmul inv_sx (map Num sx) ;;
  let w := fsum ones in
  x_over_sx <- broadcast fdiv (map Num x) (map Num sx) ;;
  xs <- broadcast fmul x_over_sx (map Num sx) ;;
  let wx := fdiv (fsum xs) w in
  Ok (wx, fsqrt (fdiv (Num 1) w)).


(** ** Two-dimensional arrays

    A 2-D array is its shape and its rows; [np.zeros] and every operation
    below keep the rows in step with the shape. *)

Record ndarray : Type := mk_ndarray {
  nrows : nat;
  ncols : nat;
  rows : list (list R)
}.

Definition entry (m : ndarray) (i j : nat) : R := nth j (nth i (rows m) []) 0.

Definition np_zeros1 (n : nat) : list R := repeat 0 n.

Definition np_zeros2 (r c : nat) : ndarray :=
  mk_ndarray r c (repeat (repeat 0 c) r).

Fixpoint update {A : Type} (l : list A) (i : nat) (v : A) : list A :=
  match l, i with
  | [], _ => []
  | _ :: l', O => v :: l'
  | u :: l', S i' => u :: update l' i' v
  end.

(** [a[k]] for [0 <= k]. *)
Definition getitem {A : Type} (a : list A) (k : nat) : outcome A :=
  match nth_error a k with
  | Some v => Ok v
  | None => Raise IndexError
  end.

(** [a[i] = v] on a 1-D array. *)
Definition setitem (a : list R) (i : nat) (v : R) : outcome (list R) :=
  if Nat.ltb i (length a) then Ok (update a i v) else Raise IndexError.

(** [m[i, j]] and [m[i, j] = v]. *)
Definition get_entry (m : ndarray) (i j : nat) : outcome R :=
  if andb (Nat.ltb i (nrows m)) (Nat.ltb j (ncols m))
  then Ok (entry m i j) else Raise IndexError.

Definition set_entry (m : ndarray) (i j : nat) (v : R) : outcome ndarray :=
  if andb (Nat.ltb i (nrows m)) (Nat.ltb j (ncols m))
  then Ok (mk_ndarray (nrows m) (ncols m)
             (update (rows m) i (update (nth i (rows m) []) j v)))
  else Raise IndexError.

(** [m[i] = v] for a sequence [v]: the row is overwritten; [v] has the
    length of a row or length one (and is then repeated). *)
Definition set_row (m : ndarray) (i : nat) (v : list R) : outcome ndarray :=
  if Nat.ltb i (nrows m) then
    if Nat.eqb (length v) (ncols m)
    then Ok (mk_ndarray (nrows m) (ncols m) (update (rows m) i v))
    else match v with
         | [u] => Ok (mk_ndarray (nrows m) (ncols m)
                        (update (rows m) i (repeat u (ncols m))))
         | _ => Raise ValueError
         end
  else Raise IndexError.

(** [m[j : j + 2, j : j + 2] = b] for a 2x2 array [b]: slices are clipped
    to the array, and a 2x2 value only fits a slice that is 2x2. *)
Definition set_block (m : ndarray) (j : nat) (b : ndarray) : outcome ndarray :=
  if andb (andb (Nat.eqb (nrows b) 2) (Nat.eqb (ncols b) 2))
          (andb (Nat.leb (j + 2) (nrows m)) (Nat.leb (j + 2) (ncols m)))
  then
    let write_row (i : nat) (r : list R) : list R :=
      update (update r j (entry b i 0)) (j + 1) (entry b i 1) in
    let r0 := write_row 0%nat (nth j (rows m) []) in
    let r1 := write_row 1%nat (nth (j + 1) (rows m) []) in
    Ok (mk_ndarray (nrows m) (ncols m) (update (update (rows m) j r0) (j + 1) r1))
  else Raise ValueError.

(** [m.T] *)
Definition transpose (m : ndarray) : ndarray :=
  mk_ndarray (ncols m) (nrows m)
    (map (fun j => map (fun i => entry m i j) (seq 0 (nrows m))) (seq 0 (ncols m))).

(** [np.dot] of two 2-D arrays, and of a 2-D with a 1-D array. *)
Definition np_dot (a b : ndarray) : outcome ndarray :=
  if Nat.eqb (ncols a) (nrows b) then
    Ok (mk_ndarray (nrows a) (ncols b)
          (map (fun i =>
                  map (fun j =>
                         np_sum (map (fun l => entry a i l * entry b l j)
                                     (seq 0 (ncols a))))
                      (seq 0 (ncols b)))
               (seq 0 (nrows a))))
  else Raise ValueError.

Definition np_dot_vec (a : ndarray) (v : list R) : outcome (list R) :=
  if Nat.eqb (ncols a) (length v) then
    Ok (map (fun i => np_sum (map (fun l => entry a i l * nth l v 0) (seq 0 (ncols a))))
            (seq 0 (nrows a)))
  else Raise ValueError.

(** [numpy.linalg.inv], as far as the module uses it: on 2x2 arrays.  A
    singular matrix raises [LinAlgError]; so does an array that is not
    square.  Square arrays of another size do not occur and are reported
    the same way. *)
Definition inv (m : ndarray) : outcome ndarray :=
  if andb (Nat.eqb (nrows m) 2) (Nat.eqb (ncols m) 2) then
    let a := entry m 0 0 in
    let b := entry m 0 1 in
    let c := entry m 1 0 in
    let d := entry m 1 1 in
    let det := a * d - b * c in
    if Req_dec_T det 0 then Raise LinAlgError
    else Ok (mk_ndarray 2 2 [[d / det; - b / det]; [- c / det; a / det]])
  else Raise LinAlgError.

(** [range(start, stop, step)] for a positive step. *)
Definition py_range (start stop step : nat) : list nat :=
  map (fun k => (start + step * k)%nat)
      (seq 0 ((stop - start + (step - 1)) / step)).

Fixpoint for_each {S : Type} (js : list nat) (body : nat -> S -> outcome S) (st : S)
  : outcome S :=
  match js with
  | [] => Ok st
  | j :: js' => st' <- body j st ;; for_each js' body st'
  end.

(** ** [weighted_mean_twod] *)

Record loop_state : Type := mk_state {
  cinv : ndarray;
  cov : ndarray;
  mat_a : ndarray;
  vec_b : list R
}.

(** One pass of the loop body of lines 100-110 for the index [j]. *)
Definition loop_body (x y sx sy cxy : list R) (j : nat) (st : loop_state)
  : outcome loop_state :=
  mat_a1 <- set_row (mat_a st) j [1; 0] ;;
  mat_a2 <- set_row mat_a1 (j + 1) [0; 1] ;;
  let k := (j / 2)%nat in
  xk <- getitem x k ;;
  vec_b1 <- setitem (vec_b st) j xk ;;
  yk <- getitem y k ;;
  vec_b2 <- setitem vec_b1 (j + 1) yk ;;
  sxk <- getitem sx k ;;
  cov1 <- set_entry (cov st) 0 0 (sxk ^ 2) ;;
  syk <- getitem sy k ;;
  cov2 <- set_entry cov1 1 1 (syk ^ 2) ;;
  sxk' <- getitem sx k ;;
  syk' <- getitem sy k ;;
  cxyk <- getitem cxy k ;;
  cov3 <- set_entry cov2 1 0 (sxk' * syk' * cxyk) ;;
  c10 <- get_entry cov3 1 0 ;;
  cov4 <- set_entry cov3 0 1 c10 ;;
  ci <- inv cov4 ;;
  cinv1 <- set_block (cinv st) j ci ;;
  Ok (mk_state cinv1 cov4 mat_a2 vec_b2).

Definition weighted_mean_twod (x y sx sy cxy : list R) : outcome (R * R * ndarray) :=
  let ndata := length x in
  let st0 := mk_state (np_zeros2 (2 * ndata) (2 * ndata))
                      (np_zeros2 2 2)
                      (np_zeros2 (2 * ndata) 2)
                      (np_zeros1 (2 * ndata)) in
  st <- for_each (py_range 0 (2 * ndata) 2) (loop_body x y sx sy cxy) st0 ;;
  ca <- np_dot (cinv st) (mat_a st) ;;
  normal <- np_dot (transpose (mat_a st)) ca ;;
  covw <- inv normal ;;
  cb <- np_dot_vec (cinv st) (vec_b st) ;;
  acb <- np_dot_vec (transpose (mat_a st)) cb ;;
  w <- np_dot_vec covw acb ;;
  match w with
  | [wx; wy] => Ok (wx, wy, covw)
  | _ => Raise ValueError
  end.

(** * Specification-side notions *)

(** [p] is the [q]-th percentile of [x] by linear interpolation between
    order statistics: with [s] the ascending arrangement of [x] and
    [h = q/100 * (n - 1)] the fractional rank, [p] lies between the
    order statistics of rank [floor h] and the next one, at the fraction
    [h - floor h]. *)
Definition linear_percentile (x : list R) (q p : R) : Prop :=
  exists s : list R,
    Permutation x s /\ Sorted Rle s /\
    exists k : nat,
      let h := q / 100 * (INR (length s) - 1) in
      (k < length s)%nat /\ INR k <= h < INR k + 1 /\
      p = nth k s 0
          + (h - INR k) * (nth (Nat.min (S k) (length s - 1)) s 0 - nth k s 0).

(** The covariance matrix of one measurement (section 3 of the
    specification, and the docstring of [weighted_mean_twod]). *)
Definition point_cov (sxk syk cxyk : R) : ndarray :=
  mk_ndarray 2 2 [[sxk ^ 2; sxk * syk * cxyk]; [sxk * syk * cxyk; syk ^ 2]].

(** Symmetry and positive definiteness of a 2x2 array. *)
Definition quadratic_form (m : ndarray) (u v : R) : R :=
  u * (entry m 0 0 * u + entry m 0 1 * v) + v * (entry m 1 0 * u + entry m 1 1 * v).

Definition symmetric (m : ndarray) : Prop := entry m 0 1 = entry m 1 0.

Definition positive_definite (m : ndarray) : Prop :=
  forall u v : R, u <> 0 \/ v <> 0 -> 0 < quadratic_form m u v.

(** The classic inverse-variance weighted mean,
    [sum(x_i/sx_i^2) / sum(1/sx_i^2)]. *)
Definition inverse_variance_mean (x sx : list R) : R :=
  np_sum (zip_with (fun a s => a / s ^ 2) x sx) / np_sum (map (fun s => 1 / s ^ 2) sx).

(** A vector observation set: five sequences of one length [N >= 1],
    positive uncertainties and correlations strictly inside (-1, 1). *)
Definition valid_input (x y sx sy cxy : list R) : Prop :=
  (1 <= length x)%nat /\
  length y = length x /\ length sx = length x /\
  length sy = length x /\ length cxy = length x /\
  Forall (fun s => 0 < s) sx /\ Forall (fun s => 0 < s) sy /\
  Forall (fun c => Rabs c < 1) cxy.

(** ** The block-wise computation of the weighted mean

    The running 2x2 normal matrix and 2-vector of the specification: each
    point [k] adds [A_k^T Cinv_k A_k] and [A_k^T Cinv_k b_k], where [A_k]
    is the 2x2 identity, [Cinv_k] the inverse of the point's covariance
    and [b_k = (x_k, y_k)]. *)

Definition np_eye2 : ndarray := mk_ndarray 2 2 [[1; 0]; [0; 1]].

Definition np_add1 (a b : list R) : list R := zip_with Rplus a b.

Definition np_add2 (a b : ndarray) : ndarray :=
  mk_ndarray (nrows a) (ncols a) (zip_with np_add1 (rows a) (rows b)).

Definition accumulate_point (x y sx sy cxy : list R) (k : nat)
    (acc : ndarray * list R) : outcome (ndarray * list R) :=
  xk <- getitem x k ;;
  yk <- getitem y k ;;
  sxk <- getitem sx k ;;
  syk <- getitem sy k ;;
  cxyk <- getitem cxy k ;;
  cinv_k <- inv (point_cov sxk syk cxyk) ;;
  let a_k := np_eye2 in
  let b_k := [xk; yk] in
  ca <- np_dot cinv_k a_k ;;
  aca <- np_dot (transpose a_k) ca ;;
  cb <- np_dot_vec cinv_k b_k ;;
  acb <- np_dot_vec (transpose a_k) cb ;;
  Ok (np_add2 (fst acc) aca, np_add1 (snd acc) acb).

(** The last step shared by both computations: invert the normal matrix
    and apply the inverse to the right-hand side. *)
Definition solve_normal (normal : ndarray) (rhs : list R) : outcome (R * R * ndarray) :=
  covw <- inv normal ;;
  w <- np_dot_vec covw rhs ;;
  match w with
  | [wx; wy] => Ok (wx, wy, covw)
  | _ => Raise ValueError
  end.

Definition weighted_mean_twod_blocks (x y sx sy cxy : list R)
  : outcome (R * R * ndarray) :=
  acc <- for_each (seq 0 (length x)) (accumulate_point x y sx sy cxy)
                  (np_zeros2 2 2, np_zeros1 2) ;;
  solve_normal (fst acc) (snd acc).

(** ** Auxiliary notions for the proofs *)

(** An array given by its entries. *)
Definition tab1 (n : nat) (f : nat -> R) : list R := map f (seq 0 n).

Definition tab (r c : nat) (f : nat -> nat -> R) : ndarray :=
  mk_ndarray r c (map (fun i => tab1 c (f i)) (seq 0 r)).

(** The inverse of a point's covariance matrix, in closed form. *)
Definition precision (sxk syk cxyk : R) : ndarray :=
  let a := sxk ^ 2 in
  let b := sxk * syk * cxyk in
  let d := syk ^ 2 in
  let det := a * d - b * b in
  mk_ndarray 2 2 [[d / det; - b / det]; [- b / det; a / det]].

(** The determinant of a point's covariance matrix. *)
Definition pdet (s t c : R) : R := s ^ 2 * t ^ 2 - s * t * c * (s * t * c).

Definition prec_at (sx sy cxy : list R) (i p q : nat) : R :=
  entry (precision (nth i sx 0) (nth i sy 0) (nth i cxy 0)) p q.

(** What one point must pass before it contributes: the reads of the five
    arrays in the order of the loop body, then the inversion. *)
Definition point_outcome (x y sx sy cxy : list R) (k : nat) : outcome unit :=
  _ <- getitem x k ;;
  _ <- getitem y k ;;
  sxk <- getitem sx k ;;
  syk <- getitem sy k ;;
  cxyk <- getitem cxy k ;;
  _ <- inv (point_cov sxk syk cxyk) ;;
  Ok tt.

Definition check_points (x y sx sy cxy : list R) (ks : list nat) : outcome unit :=
  for_each ks (fun k _ => point_outcome x y sx sy cxy k) tt.

(** The arrays of the loop after the first [k] points. *)
Definition cinv_after (sx sy cxy : list R) (k a b : nat) : R :=
  if andb (Nat.eqb (a / 2) (b / 2)) (Nat.ltb (a / 2) k)
  then prec_at sx sy cxy (a / 2) (a mod 2) (b mod 2)
  else 0.

Definition mat_a_after (k a b : nat) : R :=
  if andb (Nat.ltb (a / 2) k) (Nat.eqb (a mod 2) b) then 1 else 0.

Definition vec_b_after (x y : list R) (k a : nat) : R :=
  if Nat.ltb (a / 2) k
  then (if Nat.eqb (a mod 2) 0 then nth (a / 2) x 0 else nth (a / 2) y 0)
  else 0.

(** The normal matrix and right-hand side summed over the first [k]
    points. *)
Definition normal_entry (sx sy cxy : list R) (k p q : nat) : R :=
  np_sum (map (fun i => prec_at sx sy cxy i p q) (seq 0 k)).

Definition rhs_entry (x y sx sy cxy : list R) (k p : nat) : R :=
  np_sum (map (fun i => prec_at sx sy cxy i p 0 * nth i x 0
                        + prec_at sx sy cxy i p 1 * nth i y 0) (seq 0 k)).

Definition normal_sum (sx sy cxy : list R) (k : nat) : ndarray :=
  tab 2 2 (normal_entry sx sy cxy k).

Definition rhs_sum (x y sx sy cxy : list R) (k : nat) : list R :=
  tab1 2 (rhs_entry x y sx sy cxy k).

Record loop_invariant (x y sx sy cxy : list R) (k : nat) (st : loop_state) : Prop :=
  mk_loop_invariant {
    inv_cinv : cinv st = tab (2 * length x) (2 * length x) (cinv_after sx sy cxy k);
    inv_mat_a : mat_a st = tab (2 * length x) 2 (mat_a_after k);
    inv_vec_b : vec_b st = tab1 (2 * length x) (vec_b_after x y k);
    inv_cov : cov st = tab 2 2 (entry (cov st))
  }.

Ltac Zify.zify_post_hook ::= Z.div_mod_to_equations.

(** Case analysis on every comparison of indices in the goal. *)
Ltac case_indices :=
  repeat match goal with
         | |- context [Nat.eqb ?a ?b] => destruct (Nat.eqb_spec a b)
         | |- context [Nat.ltb ?a ?b] => destruct (Nat.ltb_spec a b)
         | |- context [Nat.leb ?a ?b] => destruct (Nat.leb_spec a b)
         end;
  cbn [andb].

(** Equality of two arrays written out entry by entry. *)
Ltac entrywise :=
  repeat match goal with
         | |- (_, _) = (_, _) => apply (f_equal2 pair)
         | |- Ok _ = Ok _ => apply f_equal
         | |- mk_ndarray _ _ _ = mk_ndarray _ _ _ => apply f_equal
         | |- _ :: _ = _ :: _ => apply (f_equal2 cons)
         | |- [] = [] => reflexivity
         end.

(** The product [k * m] of a scalar and a 2-D array. *)
Definition np_scale (k : R) (m : ndarray) : ndarray :=
  mk_ndarray (nrows m) (ncols m) (map (map (Rmult k)) (rows m)).

(** One measurement: the entries of the five arrays at one index. *)
Record measurement : Type := mk_measurement {
  m_x : R;
  m_y : R;
  m_sx : R;
  m_sy : R;
  m_cxy : R
}.

(** [weighted_mean_twod] on the five arrays that hold the measurements. *)
Definition weighted_mean_of (ms : list measurement) : outcome (R * R * ndarray) :=
  weighted_mean_twod (map m_x ms) (map m_y ms) (map m_sx ms) (map m_sy ms)
                     (map m_cxy ms).

Definition nonsingular (m : measurement) : Prop :=
  pdet (m_sx m) (m_sy m) (m_cxy m) <> 0.

(** The chi-square of a candidate mean [(u, v)]: the sum over the points
    of the squared residual [(x_i - u, y_i - v)], weighted by the inverse
    of the point's covariance matrix. *)
Definition chi_square (x y sx sy cxy : list R) (u v : R) : R :=
  np_sum (map (fun i =>
                 quadratic_form (precision (nth i sx 0) (nth i sy 0) (nth i cxy 0))
                                (nth i x 0 - u) (nth i y 0 - v))
              (seq 0 (length x))).

(** ** [inv] as the library computes it

    NumPy does not evaluate the closed form of [inv]: it factorises the
    array with row pivoting and solves for the two columns of the
    identity ([Binary64.inv] below is that algorithm on floats).  Here
    the same steps are taken over the reals, where no pivot is too small
    for its reciprocal. *)

Definition lu_factor (a b c d : R) : option (bool * R * R * R * R) :=
  let swap := if Rlt_dec (Rabs a) (Rabs c) then true else false in
  let '(p, q, r, s) := if swap then (c, d, a, b) else (a, b, c, d) in
  if Req_dec_T p 0 then None
  else
    let l := r * (1 / p) in
    let u11 := s - l * q in
    if Req_dec_T u11 0 then None else Some (swap, l, p, q, u11).

Definition lu_solve (f : bool * R * R * R * R) (e0 e1 : R) : R * R :=
  let '(swap, l, u00, u01, u11) := f in
  let '(b0, b1) := if swap then (e1, e0) else (e0, e1) in
  let y1 := b1 - l * b0 in
  let x1 := y1 * (1 / u11) in
  let x0 := (b0 - u01 * x1) * (1 / u00) in
  (x0, x1).

Definition inv_lu (m : ndarray) : outcome ndarray :=
  if andb (Nat.eqb (nrows m) 2) (Nat.eqb (ncols m) 2) then
    match lu_factor (entry m 0 0) (entry m 0 1) (entry m 1 0) (entry m 1 1) with
    | None => Raise LinAlgError
    | Some f =>
        let '(x00, x10) := lu_solve f 1 0 in
        let '(x01, x11) := lu_solve f 0 1 in
        Ok (mk_ndarray 2 2 [[x00; x01]; [x10; x11]])
    end
  else Raise LinAlgError.

(** ** The same code in binary64

    Over the reals [1 / s * s] is [1] and the inverse of a symmetric
    matrix is symmetric.  What the module returns for such expressions is
    decided by rounding, so the two weighted means are embedded a second
    time with [float64] as IEEE binary64 (Rocq's primitive floats, which
    round to nearest even as NumPy does).  The definitions follow the
    exact ones line by line and keep their names inside the module. *)

Module Binary64.

Import PrimFloat.
Local Open Scope float_scope.

(** *** [np.sum] on a 1-D array

    NumPy starts from the identity [0.0] and adds the pairwise sum of
    the array: fewer than eight elements are added from left to right;
    up to 128 elements go through eight running sums that are combined
    at the end, the elements after the last full block of eight being
    added one by one; a longer array is split in two near the middle, at
    a multiple of eight.  (A sum that is zero is returned as [+0.0].) *)

Fixpoint add_blocks (fuel : nat) (r l : list float) : list float * list float :=
  match fuel with
  | O => (r, l)
  | S fuel' =>
      if Nat.leb 8 (length l)
      then add_blocks fuel' (zip_with add r (firstn 8 l)) (skipn 8 l)
      else (r, l)
  end.

Definition sum_block (l : list float) : float :=
  let '(r, rest) := add_blocks (length l) (firstn 8 l) (skipn 8 l) in
  match r with
  | [r0; r1; r2; r3; r4; r5; r6; r7] =>
      fold_left add rest (((r0 + r1) + (r2 + r3)) + ((r4 + r5) + (r6 + r7)))
  | _ => fold_left add l 0
  end.

Fixpoint pairwise_sum (fuel : nat) (l : list float) : float :=
  let n := length l in
  if Nat.ltb n 8 then fold_left add l 0
  else if Nat.leb n 128 then sum_block l
  else match fuel with
       | O => sum_block l
       | S fuel' =>
           let n2 := (n / 2 - (n / 2) mod 8)%nat in
           pairwise_sum fuel' (firstn n2 l) + pairwise_sum fuel' (skipn n2 l)
       end.

Definition np_sum (l : list float) : float := 0 + pairwise_sum (length l) l.

(** *** [weighted_mean_oned] *)

Definition weighted_mean_oned (x sx : list float) : outcome (float * float) :=
  let inv_sx := map (fun s => 1 / s) sx in
  ones <- broadcast mul inv_sx sx ;;
  let w := np_sum ones in
  x_over_sx <- broadcast div x sx ;;
  xs <- broadcast mul x_over_sx sx ;;
  let wx := np_sum xs / w in
  Ok (wx, sqrt (1 / w)).

(** *** Two-dimensional arrays *)

Record ndarray : Type := mk_ndarray {
  nrows : nat;
  ncols : nat;
  rows : list (list float)
}.

Definition entry (m : ndarray) (i j : nat) : float := nth j (nth i (rows m) []) 0.

Definition np_zeros1 (n : nat) : list float := repeat 0 n.

Definition np_zeros2 (r c : nat) : ndarray :=
  mk_ndarray r c (repeat (repeat 0 c) r).

Definition setitem (a : list float) (i : nat) (v : float) : outcome (list float) :=
  if Nat.ltb i (length a) then Ok (update a i v) else Raise IndexError.

Definition get_entry (m : ndarray) (i j : nat) : outcome float :=
  if andb (Nat.ltb i (nrows m)) (Nat.ltb j (ncols m))
  then Ok (entry m i j) else Raise IndexError.

Definition set_entry (m : ndarray) (i j : nat) (v : float) : outcome ndarray :=
  if andb (Nat.ltb i (nrows m)) (Nat.ltb j (ncols m))
  then Ok (mk_ndarray (nrows m) (ncols m)
             (update (rows m) i (update (nth i (rows m) []) j v)))
  else Raise IndexError.

Definition set_row (m : ndarray) (i : nat) (v : list float) : outcome ndarray :=
  if Nat.ltb i (nrows m) then
    if Nat.eqb (length v) (ncols m)
    then Ok (mk_ndarray (nrows m) (ncols m) (update (rows m) i v))
    else match v with
         | [u] => Ok (mk_ndarray (nrows m) (ncols m)
                        (update (rows m) i (repeat u (ncols m))))
         | _ => Raise ValueError
         end
  else Raise IndexError.

Definition set_block (m : ndarray) (j : nat) (b : ndarray) : outcome ndarray :=
  if andb (andb (Nat.eqb (nrows b) 2) (Nat.eqb (ncols b) 2))
          (andb (Nat.leb (j + 2) (nrows m)) (Nat.leb (j + 2) (ncols m)))
  then
    let write_row (i : nat) (r : list float) : list float :=
      update (update r j (entry b i 0)) (j + 1) (entry b i 1) in
    let r0 := write_row 0%nat (nth j (rows m) []) in
    let r1 := write_row 1%nat (nth (j + 1) (rows m) []) in
    Ok (mk_ndarray (nrows m) (ncols m) (update (update (rows m) j r0) (j + 1) r1))
  else Raise ValueError.

Definition transpose (m : ndarray) : ndarray :=
  mk_ndarray (ncols m) (nrows m)
    (map (fun j => map (fun i => entry m i j) (seq 0 (nrows m))) (seq 0 (ncols m))).

(** [np.dot] hands the product to BLAS.  Each entry is accumulated from
    zero over the products of a row and a column, taken from left to
    right.  (An optimised BLAS may group a long sum otherwise; with one
    or two points no sum below has more than two terms that are not
    zero, and the grouping does not matter.) *)
Definition dot_product (u v : nat -> float) (n : nat) : float :=
  fold_left (fun acc l => acc + u l * v l) (seq 0 n) 0.

Definition np_dot (a b : ndarray) : outcome ndarray :=
  if Nat.eqb (ncols a) (nrows b) then
    Ok (mk_ndarray (nrows a) (ncols b)
          (map (fun i =>
                  map (fun j => dot_product (entry a i) (fun l => entry b l j) (ncols a))
                      (seq 0 (ncols b)))
               (seq 0 (nrows a))))
  else Raise ValueError.

Definition np_dot_vec (a : ndarray) (v : list float) : outcome (list float) :=
  if Nat.eqb (ncols a) (length v) then
    Ok (map (fun i => dot_product (entry a i) (fun l => nth l v 0) (ncols a))
            (seq 0 (nrows a)))
  else Raise ValueError.

(** *** [numpy.linalg.inv] on a 2x2 array

    NumPy solves [m X = I] with LAPACK's [dgesv], as OpenBLAS provides
    it: an LU factorisation with row pivoting, then a forward and a back
    substitution for each column of the identity.  A division by a pivot
    is a multiplication by its reciprocal.  [LinAlgError] is raised when
    a pivot of the factorisation is exactly zero, and only then. *)

(** The smallest normal number, LAPACK's safe minimum: below it the
    reciprocal of a pivot could overflow, and the multiplier is a
    quotient. *)
Definition sfmin : float := 0x1p-1022.

(** The factorisation: whether the rows were exchanged, the multiplier
    and the three entries of the upper triangle; [None] for a zero
    pivot.  The row with the larger first entry comes first. *)
Definition lu_factor (a b c d : float) : option (bool * float * float * float * float) :=
  let swap := abs a <? abs c in
  let '(p, q, r, s) := if swap then (c, d, a, b) else (a, b, c, d) in
  if p =? 0 then None
  else
    let l := if sfmin <=? abs p then r * (1 / p) else r / p in
    let u11 := s - l * q in
    if u11 =? 0 then None else Some (swap, l, p, q, u11).

(** One column [(e0, e1)] of the right-hand side. *)
Definition lu_solve (f : bool * float * float * float * float) (e0 e1 : float)
  : float * float :=
  let '(swap, l, u00, u01, u11) := f in
  let '(b0, b1) := if swap then (e1, e0) else (e0, e1) in
  let y1 := b1 - l * b0 in
  let x1 := y1 * (1 / u11) in
  let x0 := (b0 - u01 * x1) * (1 / u00) in
  (x0, x1).

Definition inv (m : ndarray) : outcome ndarray :=
  if andb (Nat.eqb (nrows m) 2) (Nat.eqb (ncols m) 2) then
    match lu_factor (entry m 0 0) (entry m 0 1) (entry m 1 0) (entry m 1 1) with
    | None => Raise LinAlgError
    | Some f =>
        let '(x00, x10) := lu_solve f 1 0 in
        let '(x01, x11) := lu_solve f 0 1 in
        Ok (mk_ndarray 2 2 [[x00; x01]; [x10; x11]])
    end
  else Raise LinAlgError.

(** *** [weighted_mean_twod] *)

Record loop_state : Type := mk_state {
  cinv : ndarray;
  cov : ndarray;
  mat_a : ndarray;
  vec_b : list float
}.

(** [s ** 2] is taken as the rounded product [s * s]. *)
Definition square (s : float) : float := s * s.

Definition loop_body (x y sx sy cxy : list float) (j : nat) (st : loop_state)
  : outcome loop_state :=
  mat_a1 <- set_row (mat_a st) j [1; 0] ;;
  mat_a2 <- set_row mat_a1 (j + 1) [0; 1] ;;
  let k := (j / 2)%nat in
  xk <- getitem x k ;;
  vec_b1 <- setitem (vec_b st) j xk ;;
  yk <- getitem y k ;;
  vec_b2 <- setitem vec_b1 (j + 1) yk ;;
  sxk <- getitem sx k ;;
  cov1 <- set_entry (cov st) 0 0 (square sxk) ;;
  syk <- getitem sy k ;;
  cov2 <- set_entry cov1 1 1 (square syk) ;;
  sxk' <- getitem sx k ;;
  syk' <- getitem sy k ;;
  cxyk <- getitem cxy k ;;
  cov3 <- set_entry cov2 1 0 (sxk' * syk' * cxyk) ;;
  c10 <- get_entry cov3 1 0 ;;
  cov4 <- set_entry cov3 0 1 c10 ;;
  ci <- inv cov4 ;;
  cinv1 <- set_block (cinv st) j ci ;;
  Ok (mk_state cinv1 cov4 mat_a2 vec_b2).

Definition weighted_mean_twod (x y sx sy cxy : list float)
  : outcome (float * float * ndarray) :=
  let ndata := length x in
  let st0 := mk_state (np_zeros2 (2 * ndata) (2 * ndata))
                      (np_zeros2 2 2)
                      (np_zeros2 (2 * ndata) 2)
                      (np_zeros1 (2 * ndata)) in
  st <- for_each (py_range 0 (2 * ndata) 2) (loop_body x y sx sy cxy) st0 ;;
  ca <- np_dot (cinv st) (mat_a st) ;;
  normal <- np_dot (transpose (mat_a st)) ca ;;
  covw <- inv normal ;;
  cb <- np_dot_vec (cinv st) (vec_b st) ;;
  acb <- np_dot_vec (transpose (mat_a st)) cb ;;
  w <- np_dot_vec covw acb ;;
  match w with
  | [wx; wy] => Ok (wx, wy, covw)
  | _ => Raise ValueError
  end.

End Binary64.
(** * Properties of the robust scatter estimate *)

(** ** The monad and the float operations on finite values *)

Lemma Rzero_dec_false (r : R) : r <> 0 -> Rzero_dec r = false.
Proof.
  intros H. unfold Rzero_dec. destruct (Req_dec_T r 0); [contradiction | reflexivity].
Qed.

Lemma fdiv_num (r s : R) : s <> 0 -> fdiv (Num r) (Num s) = Num (r / s).
Proof.
  intros H. simpl. now rewrite Rzero_dec_false.
Qed.

(** ** Sorting *)

Lemma insert_sorted_perm (a : R) (l : list R) :
  Permutation (a :: l) (insert_sorted a l).
Proof.
  induction l as [|b l IH]; simpl.
  - apply Permutation_refl.
  - destruct (Rle_dec a b).
    + apply Permutation_refl.
    + eapply perm_trans; [apply perm_swap|].
      now apply perm_skip.
Qed.

Lemma np_sort_perm (l : list R) : Permutation l (np_sort l).
Proof.
  induction l as [|a l IH]; simpl.
  - constructor.
  - eapply perm_trans; [apply perm_skip, IH | apply insert_sorted_perm].
Qed.

Lemma np_sort_length (l : list R) : length (np_sort l) = length l.
Proof. symmetry. apply Permutation_length, np_sort_perm. Qed.

Lemma insert_sorted_hdrel (a b : R) (l : list R) :
  b <= a -> HdRel Rle b l -> HdRel Rle b (insert_sorted a l).
Proof.
  intros Hba Hl. destruct l as [|c l]; simpl.
  - now constructor.
  - inversion Hl; subst. destruct (Rle_dec a c); now constructor.
Qed.

Lemma insert_sorted_sorted (a : R) (l : list R) :
  Sorted Rle l -> Sorted Rle (insert_sorted a l).
Proof.
  induction 1 as [|b l Hs IH Hhd]; simpl.
  - repeat constructor.
  - destruct (Rle_dec a b) as [Hab|Hab].
    + constructor; [now constructor | now constructor].
    + constructor; [exact IH|].
      apply insert_sorted_hdrel; [lra | exact Hhd].
Qed.

Lemma np_sort_sorted (l : list R) : Sorted Rle (np_sort l).
Proof.
  induction l as [|a l IH]; simpl.
  - constructor.
  - now apply insert_sorted_sorted.
Qed.

Lemma insert_sorted_comm (a b : R) (l : list R) :
  insert_sorted a (insert_sorted b l) = insert_sorted b (insert_sorted a l).
Proof.
  induction l as [|c l IH]; simpl.
  - destruct (Rle_dec a b), (Rle_dec b a); try reflexivity.
    + assert (a = b) by lra. now subst.
    + lra.
  - destruct (Rle_dec b c) as [Hbc|Hbc], (Rle_dec a c) as [Hac|Hac]; simpl;
      repeat match goal with
             | |- context [Rle_dec ?u ?v] => destruct (Rle_dec u v)
             end;
      try reflexivity; try lra.
    + assert (a = b) by lra. now subst.
    + now rewrite IH.
Qed.

Lemma np_sort_permutation (l l' : list R) :
  Permutation l l' -> np_sort l = np_sort l'.
Proof.
  induction 1 as [| a l l' _ IH | a b l | l l' l'' _ IH1 _ IH2]; simpl.
  - reflexivity.
  - now rewrite IH.
  - apply insert_sorted_comm.
  - now rewrite IH1.
Qed.

(** ** Percentiles *)

Lemma slice_one (s : list R) (k : nat) :
  (k < length s)%nat -> slice s k (k + 1) = [nth k s 0].
Proof.
  unfold slice. replace (k + 1 - k)%nat with 1%nat by lia.
  revert k. induction s as [|a s IH]; intros k Hk; simpl in Hk; [lia|].
  destruct k as [|k]; [reflexivity|].
  simpl. apply IH. lia.
Qed.

Lemma slice_two (s : list R) (k : nat) :
  (k + 1 < length s)%nat -> slice s k (k + 2) = [nth k s 0; nth (k + 1) s 0].
Proof.
  unfold slice. replace (k + 2 - k)%nat with 2%nat by lia.
  revert k. induction s as [|a s IH]; intros k Hk; simpl in Hk; [lia|].
  destruct k as [|k].
  - destruct s as [|b s]; [simpl in Hk; lia | reflexivity].
  - simpl skipn. rewrite IH by lia. reflexivity.
Qed.

Lemma py_int_nonneg (r : R) :
  0 <= r -> (0 <= py_int r)%Z /\ IZR (py_int r) <= r < IZR (py_int r) + 1.
Proof.
  intros Hr. unfold py_int. destruct (Rle_dec 0 r) as [_|]; [|contradiction].
  destruct (base_Int_part r) as [Hlo Hhi].
  split; [|lra].
  assert (H : (-1 < Int_part r)%Z) by (apply lt_IZR; lra).
  lia.
Qed.

(** The fractional rank and the outcome of the library routine on a sorted,
    nonempty array. *)
Lemma compute_qth_percentile_interpolates (s : list R) (per : R) :
  s <> [] -> 0 <= per <= 100 ->
  exists k : nat,
    let h := per / 100 * (INR (length s) - 1) in
    (k < length s)%nat /\ INR k <= h < INR k + 1 /\
    _compute_qth_percentile s per =
      Ok (Num (nth k s 0
               + (h - INR k) * (nth (Nat.min (S k) (length s - 1)) s 0 - nth k s 0))).
Proof.
  intros Hs [Hp0 Hp1].
  assert (Hlen : (1 <= length s)%nat) by (destruct s; [contradiction | simpl; lia]).
  assert (Hn : 1 <= INR (length s)) by (change 1 with (INR 1); now apply le_INR).
  set (h := per / 100 * (INR (length s) - 1)).
  assert (Hh0 : 0 <= h) by (unfold h; apply Rmult_le_pos; lra).
  assert (Hh1 : h <= INR (length s) - 1) by (unfold h; nra).
  destruct (py_int_nonneg h Hh0) as [Hi0 [Hlo Hhi]].
  set (i := py_int h) in *.
  exists (Z.to_nat i).
  assert (Hk : INR (Z.to_nat i) = IZR i) by (rewrite INR_IZR_INZ, Z2Nat.id; auto).
  assert (Hklt : (Z.to_nat i < length s)%nat).
  { apply INR_lt. rewrite Hk. lra. }
  cbv zeta. fold h. rewrite Hk.
  split; [exact Hklt|]. split; [lra|].
  unfold _compute_qth_percentile.
  destruct (Rle_dec 0 per); [|contradiction].
  destruct (Rle_dec per 100); [|contradiction].
  cbv zeta. simpl andb. cbv iota. fold h. fold i.
  destruct (Req_dec_T (IZR i) h) as [Heq|Hne].
  - replace (Z.to_nat (i + 1)) with (Z.to_nat i + 1)%nat by lia.
    rewrite slice_one by exact Hklt. cbn [map np_sum fold_right].
    rewrite fdiv_num by lra. do 2 f_equal. rewrite <- Heq. field.
  - assert (Hk1 : (Z.to_nat i + 1 < length s)%nat).
    { apply INR_lt. rewrite plus_INR, Hk. simpl INR.
      assert (IZR i < h) by lra.
      assert (Hz : (i + 1 <= Z.of_nat (length s) - 1)%Z).
      { assert (Hlt : (i < Z.of_nat (length s) - 1)%Z).
        { apply lt_IZR. rewrite minus_IZR, <- INR_IZR_INZ. lra. }
        lia. }
      apply IZR_le in Hz. rewrite minus_IZR, plus_IZR, <- INR_IZR_INZ in Hz.
      assert (Hne' : IZR i + 1 <> INR (length s)).
      { intro E. lra. }
      lra. }
    replace (Z.to_nat (i + 2)) with (Z.to_nat i + 2)%nat by lia.
    rewrite slice_two by exact Hk1.
    unfold broadcast. cbn [length Nat.eqb zip_with bind np_sum fold_right].
    rewrite plus_IZR.
    rewrite fdiv_num by lra.
    replace (Nat.min (S (Z.to_nat i)) (length s - 1)) with (Z.to_nat i + 1)%nat by lia.
    do 2 f_equal. field. lra.
Qed.

Lemma scoreatpercentile_linear (x : list R) (per : R) :
  x <> [] -> 0 <= per <= 100 ->
  exists p, linear_percentile x per p /\ scoreatpercentile x per = Ok (Num p).
Proof.
  intros Hx Hper.
  assert (Hs : np_sort x <> []).
  { intro E. apply Hx. apply length_zero_iff_nil.
    rewrite <- np_sort_length, E. reflexivity. }
  destruct (compute_qth_percentile_interpolates (np_sort x) per Hs Hper)
    as (k & Hk & Hh & Hres).
  eexists. split.
  - exists (np_sort x). split; [apply np_sort_perm|]. split; [apply np_sort_sorted|].
    exists k. cbv zeta. split; [exact Hk|]. split; [exact Hh | reflexivity].
  - unfold scoreatpercentile.
    destruct x as [|a x]; [contradiction|]. simpl Nat.eqb. cbv iota zeta.
    exact Hres.
Qed.

Lemma sqrt2_bounds : 1.41421356 < sqrt 2 < 1.41421357.
Proof.
  assert (H0 : 0 <= sqrt 2) by apply sqrt_pos.
  assert (H2 : sqrt 2 * sqrt 2 = 2) by (apply sqrt_sqrt; lra).
  split; nra.
Qed.

Section RobustScatterProperties.

Variable erfinv : R -> R.

(** C1: on a nonempty array, [rse] returns [C * (P90 - P10)] with [P10] and
    [P90] the 10th and 90th percentiles by linear interpolation between
    order statistics, and [C = 1 / (sqrt 2 * 2 * erfinv 0.8)]; with the value
    of the inverse error function at 0.8 (0.9061938...), [C] is 0.390152 to
    six digits. *)
Theorem rse_scaled_percentile_spread (x : list R) :
  x <> [] ->
  0.9061938 <= erfinv 0.8 <= 0.9061939 ->
  exists p10 p90 C : R,
    linear_percentile x 10 p10 /\ linear_percentile x 90 p90 /\
    C = 1 / (sqrt 2 * 2 * erfinv 0.8) /\
    Rabs (C - 0.3901522) < 0.000001 /\
    rse erfinv x = Ok (Num (C * (p90 - p10))).
Proof.
  intros Hx Herf.
  destruct (scoreatpercentile_linear x 10 Hx ltac:(lra)) as (p10 & Hp10 & E10).
  destruct (scoreatpercentile_linear x 90 Hx ltac:(lra)) as (p90 & Hp90 & E90).
  pose proof sqrt2_bounds as Hs.
  set (D := sqrt 2 * 2 * erfinv 0.8).
  assert (HD : 2.563103 < D < 2.563104) by (unfold D; nra).
  exists p10, p90, (1 / D).
  split; [exact Hp10|]. split; [exact Hp90|]. split; [reflexivity|]. split.
  - assert (HC : 1 / D * D = 1) by (field; lra).
    apply Rabs_def1; nra.
  - unfold rse. rewrite E90, E10. simpl bind.
    unfold _rse_constant. fold D. rewrite fdiv_num by lra. reflexivity.
Qed.

(** C7 (amended): on the empty array [rse] raises no error and returns
    [nan]: [scoreatpercentile] answers [nan] for an empty array and the
    subtraction and the product propagate it. *)
Theorem rse_empty_is_nan : rse erfinv [] = Ok NaN.
Proof.
  unfold rse. simpl. destruct _rse_constant; reflexivity.
Qed.

(** C9: [rse] does not depend on the order of the values. *)
Theorem rse_permutation_invariant (x y : list R) :
  Permutation x y -> rse erfinv x = rse erfinv y.
Proof.
  intros Hperm. unfold rse, scoreatpercentile.
  rewrite (Permutation_length Hperm), (np_sort_permutation x y Hperm).
  reflexivity.
Qed.

End RobustScatterProperties.

Lemma rse_scaled_percentile_spread_witness :
  exists p10 p90 C : R,
    linear_percentile [3; 1; 2] 10 p10 /\ linear_percentile [3; 1; 2] 90 p90 /\
    C = 1 / (sqrt 2 * 2 * 0.9061938) /\
    Rabs (C - 0.3901522) < 0.000001 /\
    rse (fun _ => 0.9061938) [3; 1; 2] = Ok (Num (C * (p90 - p10))).
Proof.
  apply (rse_scaled_percentile_spread (fun _ => 0.9061938) [3; 1; 2]); [discriminate | lra].
Defined.

(** C7 as stated fails: on the empty array [rse] raises nothing. *)
Lemma rse_empty_does_not_raise : ~ raises (rse (fun _ => 0.9061938) []).
Proof.
  intros [e H]. discriminate H.
Qed.

Lemma rse_permutation_invariant_witness :
  rse (fun _ => 0.9061938) [1; 2; 3] = rse (fun _ => 0.9061938) [3; 1; 2].
Proof.
  apply (rse_permutation_invariant (fun _ => 0.9061938)).
  apply Permutation_sym, (Permutation_cons_app [1; 2] []). apply Permutation_refl.
Defined.

(** The order statistics, hence the percentile, are determined by the
    values. *)
Lemma np_sort_sorted_id (s : list R) : Sorted Rle s -> np_sort s = s.
Proof.
  induction 1 as [|a l Hs IH Hhd]; simpl; [reflexivity|].
  rewrite IH. destruct Hhd as [|b l Hab]; simpl; [reflexivity|].
  destruct (Rle_dec a b); [reflexivity | contradiction].
Qed.

Lemma linear_percentile_unique (x : list R) (q p p' : R) :
  linear_percentile x q p -> linear_percentile x q p' -> p = p'.
Proof.
  intros (s & Hp & Hs & k & Hk & Hh & ->) (s' & Hp' & Hs' & k' & Hk' & Hh' & ->).
  assert (E : s' = s).
  { rewrite <- (np_sort_sorted_id s'), <- (np_sort_sorted_id s) by assumption.
    apply np_sort_permutation.
    eapply Permutation_trans; [apply Permutation_sym; eassumption | assumption]. }
  subst s'.
  assert (k' = k).
  { assert (INR k' < INR k + 1 /\ INR k < INR k' + 1) as [H1 H2] by lra.
    rewrite <- S_INR in H1, H2. apply INR_lt in H1, H2. lia. }
  subst k'. reflexivity.
Qed.

(** * The one-dimensional helper *)

Lemma zip_with_length {A B C : Type} (f : A -> B -> C) (a : list A) (b : list B) :
  length a = length b -> length (zip_with f a b) = length a.
Proof.
  revert b. induction a as [|u a IH]; intros [|v b] H; simpl in *; try lia.
  now rewrite IH by lia.
Qed.

Lemma broadcast_same_length {A B C : Type} (f : A -> B -> C) (a : list A) (b : list B) :
  length a = length b -> broadcast f a b = Ok (zip_with f a b).
Proof.
  intros H. unfold broadcast. now rewrite H, Nat.eqb_refl.
Qed.

Lemma fsum_num (l : list R) : fsum (map Num l) = Num (np_sum l).
Proof.
  induction l as [|a l IH]; [reflexivity|].
  cbn [map fsum fold_right]. fold (fsum (map Num l)). now rewrite IH.
Qed.

Lemma np_sum_ones (A : Type) (l : list A) : np_sum (map (fun _ => 1) l) = INR (length l).
Proof.
  induction l as [|a l IH]; [reflexivity|].
  cbn [map np_sum fold_right length]. fold (np_sum (map (fun _ : A => 1) l)).
  rewrite IH, S_INR. lra.
Qed.

Lemma reciprocal_times_self (sx : list R) :
  Forall (fun s => s <> 0) sx ->
  zip_with fmul (map (fun s => fdiv (Num 1) (Num s)) sx) (map Num sx)
  = map Num (map (fun _ => 1) sx).
Proof.
  induction 1 as [|s sx Hs _ IH]; [reflexivity|].
  cbn [map zip_with]. rewrite IH, fdiv_num by exact Hs.
  cbn [fmul]. do 2 f_equal. now field.
Qed.

Lemma quotient_times_divisor (x sx : list R) :
  length x = length sx ->
  Forall (fun s => s <> 0) sx ->
  zip_with fmul (zip_with fdiv (map Num x) (map Num sx)) (map Num sx) = map Num x.
Proof.
  intros Hlen Hsx. revert x Hlen.
  induction Hsx as [|s sx Hs _ IH]; intros [|a x] Hlen; simpl in Hlen; try lia.
  - reflexivity.
  - cbn [map zip_with]. rewrite IH by lia. rewrite fdiv_num by exact Hs.
    cbn [fmul]. do 2 f_equal. now field.
Qed.

(** C10 (amended): over the reals, for a nonempty [x] and nonzero
    uncertainties of the same length, the helper computes the plain
    arithmetic mean of [x] and [sqrt (1/N)], whatever the values in [sx]:
    [1 / sx * sx] is 1 and [x / sx * sx] is [x] elementwise.  (In
    binary64 the two products are rounded and the result depends on
    [sx]; it is evaluated there further down.) *)
Theorem weighted_mean_oned_is_plain_mean (x sx : list R) :
  x <> [] ->
  length sx = length x ->
  Forall (fun s => s <> 0) sx ->
  weighted_mean_oned x sx
  = Ok (Num (np_sum x / INR (length x)), Num (sqrt (1 / INR (length x)))).
Proof.
  intros Hx Hlen Hsx.
  assert (HN : 0 < INR (length x)).
  { apply lt_0_INR. destruct x; [contradiction | simpl; lia]. }
  unfold weighted_mean_oned.
  rewrite broadcast_same_length by now rewrite !length_map.
  cbn [bind].
  rewrite (broadcast_same_length fdiv) by now rewrite !length_map.
  cbn [bind].
  rewrite (broadcast_same_length fmul)
    by (rewrite zip_with_length; rewrite !length_map; congruence).
  cbn [bind].
  rewrite reciprocal_times_self, quotient_times_divisor by (assumption || congruence).
  rewrite !fsum_num, np_sum_ones, Hlen.
  rewrite !fdiv_num by lra.
  unfold fsqrt. destruct (Rlt_dec (1 / INR (length x)) 0) as [Hneg|_]; [|reflexivity].
  exfalso. assert (0 < 1 / INR (length x)) by (apply Rdiv_lt_0_compat; lra). lra.
Qed.

Lemma weighted_mean_oned_is_plain_mean_witness :
  weighted_mean_oned [1; 5] [2; -3]
  = Ok (Num (np_sum [1; 5] / INR 2), Num (sqrt (1 / INR 2))).
Proof.
  apply (weighted_mean_oned_is_plain_mean [1; 5] [2; -3]).
  - discriminate.
  - reflexivity.
  - repeat constructor; lra.
Defined.

(** * Arrays given by their entries *)

Lemma nth_map_seq {A : Type} (f : nat -> A) (s n i : nat) (d : A) :
  (i < n)%nat -> nth i (map f (seq s n)) d = f (s + i)%nat.
Proof.
  revert s i. induction n as [|n IH]; intros s i Hi; [lia|].
  destruct i as [|i]; simpl.
  - now rewrite Nat.add_0_r.
  - rewrite IH by lia. f_equal. lia.
Qed.

Lemma tab1_nth (n : nat) (f : nat -> R) (i : nat) :
  (i < n)%nat -> nth i (tab1 n f) 0 = f i.
Proof. intros Hi. unfold tab1. now rewrite nth_map_seq. Qed.

Lemma tab1_length (n : nat) (f : nat -> R) : length (tab1 n f) = n.
Proof. unfold tab1. now rewrite length_map, length_seq. Qed.

Lemma entry_tab (r c : nat) (f : nat -> nat -> R) (i j : nat) :
  (i < r)%nat -> (j < c)%nat -> entry (tab r c f) i j = f i j.
Proof.
  intros Hi Hj. unfold entry, tab. cbn [rows].
  rewrite nth_map_seq by exact Hi. now rewrite tab1_nth.
Qed.

Lemma tab1_ext (n : nat) (f g : nat -> R) :
  (forall i, (i < n)%nat -> f i = g i) -> tab1 n f = tab1 n g.
Proof.
  intros H. unfold tab1. apply map_ext_in. intros i Hi.
  apply in_seq in Hi. apply H. lia.
Qed.

Lemma tab_ext (r c : nat) (f g : nat -> nat -> R) :
  (forall i j, (i < r)%nat -> (j < c)%nat -> f i j = g i j) -> tab r c f = tab r c g.
Proof.
  intros H. unfold tab. f_equal. apply map_ext_in. intros i Hi.
  apply in_seq in Hi. apply tab1_ext. intros j Hj. apply H; lia.
Qed.

Lemma update_map_seq {A : Type} (f : nat -> A) (s n i : nat) (v : A) :
  update (map f (seq s n)) i v
  = map (fun a => if Nat.eqb a (s + i) then v else f a) (seq s n).
Proof.
  revert s i. induction n as [|n IH]; intros s i; [reflexivity|].
  destruct i as [|i]; cbn [seq map update].
  - rewrite Nat.add_0_r, Nat.eqb_refl. f_equal.
    apply map_ext_in. intros a Ha. apply in_seq in Ha.
    destruct (Nat.eqb_spec a s); [lia | reflexivity].
  - rewrite IH. destruct (Nat.eqb_spec s (s + S i)); [lia|].
    f_equal. apply map_ext. intros a. now replace (S s + i)%nat with (s + S i)%nat by lia.
Qed.

Lemma repeat_map_seq {A : Type} (v : A) (s n : nat) :
  repeat v n = map (fun _ => v) (seq s n).
Proof.
  revert s. induction n as [|n IH]; intros s; simpl; [reflexivity|].
  now rewrite (IH (S s)).
Qed.

Lemma np_zeros1_tab (n : nat) : np_zeros1 n = tab1 n (fun _ => 0).
Proof. apply repeat_map_seq. Qed.

Lemma np_zeros2_tab (r c : nat) : np_zeros2 r c = tab r c (fun _ _ => 0).
Proof.
  unfold np_zeros2, tab. f_equal.
  rewrite (repeat_map_seq _ 0 r). apply map_ext. intros _. apply np_zeros1_tab.
Qed.

Lemma list_as_tab1 (l : list R) : l = tab1 (length l) (fun j => nth j l 0).
Proof.
  unfold tab1. apply nth_ext with (d := 0) (d' := 0).
  - now rewrite length_map, length_seq.
  - intros i Hi. now rewrite nth_map_seq.
Qed.

Lemma setitem_tab1 (n : nat) (f : nat -> R) (i : nat) (v : R) :
  (i < n)%nat ->
  setitem (tab1 n f) i v = Ok (tab1 n (fun a => if Nat.eqb a i then v else f a)).
Proof.
  intros Hi. unfold setitem. rewrite tab1_length.
  destruct (Nat.ltb_spec i n); [|lia].
  unfold tab1. now rewrite update_map_seq.
Qed.

Lemma set_row_tab (r c : nat) (f : nat -> nat -> R) (i : nat) (v : list R) :
  (i < r)%nat -> length v = c ->
  set_row (tab r c f) i v
  = Ok (tab r c (fun a b => if Nat.eqb a i then nth b v 0 else f a b)).
Proof.
  intros Hi Hv. unfold set_row, tab. cbn [nrows ncols rows].
  destruct (Nat.ltb_spec i r); [|lia].
  rewrite Hv, Nat.eqb_refl, update_map_seq. do 2 f_equal.
  apply map_ext. intros a. cbn [Nat.add].
  destruct (Nat.eqb a i); [|reflexivity].
  rewrite <- Hv. apply list_as_tab1.
Qed.

Lemma set_block_tab (r c : nat) (f : nat -> nat -> R) (j : nat) (b : ndarray) :
  nrows b = 2%nat -> ncols b = 2%nat -> (j + 2 <= r)%nat -> (j + 2 <= c)%nat ->
  set_block (tab r c f) j b
  = Ok (tab r c (fun a' b' =>
          if andb (Nat.leb j a') (Nat.ltb a' (j + 2))
          then (if andb (Nat.leb j b') (Nat.ltb b' (j + 2))
                then entry b (a' - j) (b' - j) else f a' b')
          else f a' b')).
Proof.
  intros Hr Hc Hjr Hjc. unfold set_block. rewrite Hr, Hc.
  cbn [nrows ncols rows tab Nat.eqb andb].
  destruct (Nat.leb_spec (j + 2) r); [|lia].
  destruct (Nat.leb_spec (j + 2) c); [|lia].
  cbn [andb]. unfold tab. do 2 f_equal.
  rewrite !nth_map_seq by lia. cbn [Nat.add].
  rewrite !update_map_seq. cbn [Nat.add].
  apply map_ext_in. intros a Ha.
  destruct (Nat.eqb_spec a (j + 1)) as [->|Hn1].
  - destruct (Nat.leb_spec j (j + 1)); [|lia].
    destruct (Nat.ltb_spec (j + 1) (j + 2)); [|lia]. cbn [andb].
    unfold tab1. rewrite !update_map_seq. cbn [Nat.add].
    apply map_ext. intros b'.
    destruct (Nat.eqb_spec b' (j + 1)) as [->|]; [|destruct (Nat.eqb_spec b' j) as [->|]].
    + destruct (Nat.leb_spec j (j + 1)); [|lia].
      destruct (Nat.ltb_spec (j + 1) (j + 2)); [|lia].
      now replace (j + 1 - j)%nat with 1%nat by lia.
    + destruct (Nat.leb_spec j j); [|lia].
      destruct (Nat.ltb_spec j (j + 2)); [|lia].
      replace (j + 1 - j)%nat with 1%nat by lia.
      now replace (j - j)%nat with 0%nat by lia.
    + destruct (Nat.leb_spec j b'), (Nat.ltb_spec b' (j + 2)); cbn [andb];
        try reflexivity; lia.
  - destruct (Nat.eqb_spec a j) as [->|Hn0].
    + destruct (Nat.leb_spec j j); [|lia].
      destruct (Nat.ltb_spec j (j + 2)); [|lia]. cbn [andb].
      unfold tab1. rewrite !update_map_seq. cbn [Nat.add].
      apply map_ext. intros b'.
      replace (j - j)%nat with 0%nat by lia.
      destruct (Nat.eqb_spec b' (j + 1)) as [->|]; [|destruct (Nat.eqb_spec b' j) as [->|]].
      * destruct (Nat.leb_spec j (j + 1)); [|lia].
        destruct (Nat.ltb_spec (j + 1) (j + 2)); [|lia].
        now replace (j + 1 - j)%nat with 1%nat by lia.
      * destruct (Nat.leb_spec j j); [|lia].
        destruct (Nat.ltb_spec j (j + 2)); [|lia].
        now replace (j - j)%nat with 0%nat by lia.
      * destruct (Nat.leb_spec j b'), (Nat.ltb_spec b' (j + 2)); cbn [andb];
          try reflexivity; lia.
    + destruct (Nat.leb_spec j a), (Nat.ltb_spec a (j + 2)); cbn [andb];
        try reflexivity; lia.
Qed.

Lemma transpose_tab (r c : nat) (f : nat -> nat -> R) :
  transpose (tab r c f) = tab c r (fun i j => f j i).
Proof.
  unfold transpose. cbn [nrows ncols tab]. unfold tab at 2. f_equal.
  apply map_ext_in. intros j Hj. apply in_seq in Hj.
  unfold tab1. apply map_ext_in. intros i Hi. apply in_seq in Hi.
  apply entry_tab; lia.
Qed.

Lemma np_sum_ext (n : nat) (f g : nat -> R) :
  (forall i, (i < n)%nat -> f i = g i) ->
  np_sum (map f (seq 0 n)) = np_sum (map g (seq 0 n)).
Proof. intros H. f_equal. now apply tab1_ext. Qed.

Lemma np_dot_tab (r c d : nat) (f g : nat -> nat -> R) :
  np_dot (tab r c f) (tab c d g)
  = Ok (tab r d (fun i j => np_sum (map (fun l => f i l * g l j) (seq 0 c)))).
Proof.
  unfold np_dot. cbn [nrows ncols tab]. rewrite Nat.eqb_refl.
  unfold tab at 3. do 2 f_equal.
  apply map_ext_in. intros i Hi. apply in_seq in Hi.
  unfold tab1. apply map_ext_in. intros j Hj. apply in_seq in Hj.
  apply np_sum_ext. intros l Hl.
  rewrite !entry_tab by lia. reflexivity.
Qed.

Lemma np_dot_vec_tab (r c : nat) (f : nat -> nat -> R) (v : nat -> R) :
  np_dot_vec (tab r c f) (tab1 c v)
  = Ok (tab1 r (fun i => np_sum (map (fun l => f i l * v l) (seq 0 c)))).
Proof.
  unfold np_dot_vec. cbn [nrows ncols tab]. rewrite tab1_length, Nat.eqb_refl.
  f_equal. unfold tab1 at 2. apply map_ext_in. intros i Hi. apply in_seq in Hi.
  apply np_sum_ext. intros l Hl.
  rewrite entry_tab, tab1_nth by lia. reflexivity.
Qed.

(** ** Finite sums *)

Lemma np_sum_app (l l' : list R) : np_sum (l ++ l') = np_sum l + np_sum l'.
Proof.
  induction l as [|a l IH]; cbn [app np_sum fold_right].
  - unfold np_sum. lra.
  - fold (np_sum (l ++ l')). fold (np_sum l). rewrite IH. lra.
Qed.

Lemma np_sum_snoc (n : nat) (f : nat -> R) :
  np_sum (map f (seq 0 (S n))) = np_sum (map f (seq 0 n)) + f n.
Proof.
  rewrite seq_S, map_app, np_sum_app. cbn. lra.
Qed.

(** A sum over [2n] indices, two at a time. *)
Lemma np_sum_pairs (n : nat) (f : nat -> R) :
  np_sum (map f (seq 0 (2 * n)))
  = np_sum (map (fun i => f (2 * i)%nat + f (2 * i + 1)%nat) (seq 0 n)).
Proof.
  induction n as [|n IH]; [reflexivity|].
  replace (2 * S n)%nat with (S (S (2 * n))) by lia.
  rewrite !np_sum_snoc, IH.
  replace (2 * n + 1)%nat with (S (2 * n)) by lia. lra.
Qed.

Lemma np_sum_zero (n : nat) (f : nat -> R) :
  (forall i, (i < n)%nat -> f i = 0) -> np_sum (map f (seq 0 n)) = 0.
Proof.
  induction n as [|n IH]; intros H; [reflexivity|].
  rewrite np_sum_snoc, IH, H by (intros; try apply H; lia). lra.
Qed.

(** A sum with at most one nonzero term. *)
Lemma np_sum_single (n c : nat) (f : nat -> R) :
  (c < n)%nat -> (forall i, (i < n)%nat -> i <> c -> f i = 0) ->
  np_sum (map f (seq 0 n)) = f c.
Proof.
  revert c. induction n as [|n IH]; intros c Hc H; [lia|].
  rewrite np_sum_snoc.
  destruct (Nat.eq_dec c n) as [->|Hne].
  - rewrite np_sum_zero by (intros; apply H; lia). lra.
  - rewrite (IH c) by (try lia; intros; apply H; lia).
    rewrite (H n) by lia. lra.
Qed.


(** * The loop of [weighted_mean_twod] *)

Lemma getitem_nth (a : list R) (k : nat) (v : R) :
  getitem a k = Ok v -> nth k a 0 = v /\ (k < length a)%nat.
Proof.
  unfold getitem. destruct (nth_error a k) as [u|] eqn:E; [|discriminate].
  intros [= <-]. split.
  - now apply nth_error_nth.
  - apply nth_error_Some. congruence.
Qed.

Lemma getitem_in_range (a : list R) (k : nat) :
  (k < length a)%nat -> getitem a k = Ok (nth k a 0).
Proof.
  intros Hk. unfold getitem.
  destruct (nth_error a k) as [u|] eqn:E.
  - now rewrite (nth_error_nth _ _ 0 E).
  - apply nth_error_None in E. lia.
Qed.

Lemma getitem_out_of_range (a : list R) (k : nat) :
  (length a <= k)%nat -> getitem a k = Raise IndexError.
Proof.
  intros Hk. unfold getitem.
  apply nth_error_None in Hk. now rewrite Hk.
Qed.

Lemma inv_point_cov (sxk syk cxyk : R) :
  inv (point_cov sxk syk cxyk)
  = if Req_dec_T (sxk ^ 2 * syk ^ 2 - sxk * syk * cxyk * (sxk * syk * cxyk)) 0
    then Raise LinAlgError
    else Ok (precision sxk syk cxyk).
Proof. reflexivity. Qed.

Lemma inv_point_cov_ok (sxk syk cxyk : R) (m : ndarray) :
  inv (point_cov sxk syk cxyk) = Ok m -> m = precision sxk syk cxyk.
Proof.
  rewrite inv_point_cov. destruct (Req_dec_T _ 0); [discriminate|]. now intros [= <-].
Qed.

Lemma py_range_pairs (n : nat) :
  py_range 0 (2 * n) 2 = map (fun k => (2 * k)%nat) (seq 0 n).
Proof.
  unfold py_range. replace ((2 * n - 0 + (2 - 1)) / 2)%nat with n by lia.
  reflexivity.
Qed.

Lemma loop_invariant_init (x y sx sy cxy : list R) :
  loop_invariant x y sx sy cxy 0
    (mk_state (np_zeros2 (2 * length x) (2 * length x)) (np_zeros2 2 2)
              (np_zeros2 (2 * length x) 2) (np_zeros1 (2 * length x))).
Proof.
  constructor; cbn [cinv cov mat_a vec_b].
  - rewrite np_zeros2_tab. apply tab_ext. intros a b _ _.
    unfold cinv_after. case_indices; try reflexivity; lia.
  - rewrite np_zeros2_tab. apply tab_ext. intros a b _ _.
    unfold mat_a_after. case_indices; try reflexivity; lia.
  - rewrite np_zeros1_tab. apply tab1_ext. intros a _.
    unfold vec_b_after. case_indices; try reflexivity; lia.
  - reflexivity.
Qed.

(** One pass of the loop either fails as the point's checks fail, or
    extends the arrays by the point. *)
Lemma loop_body_step (x y sx sy cxy : list R) (k : nat) (st : loop_state) :
  loop_invariant x y sx sy cxy k st -> (k < length x)%nat ->
  match loop_body x y sx sy cxy (2 * k) st with
  | Ok st' => point_outcome x y sx sy cxy k = Ok tt
              /\ loop_invariant x y sx sy cxy (S k) st'
  | Raise e => point_outcome x y sx sy cxy k = Raise e
  end.
Proof.
  intros [Hcinv Hmat Hvec Hcov] Hk.
  destruct st as [ci cv ma vb]. cbn [cinv cov mat_a vec_b] in *. subst ci ma vb.
  unfold loop_body, point_outcome. cbn [cinv cov mat_a vec_b].
  rewrite set_row_tab by (reflexivity || lia). cbn [bind].
  rewrite set_row_tab by (reflexivity || lia). cbn [bind].
  replace (2 * k / 2)%nat with k by lia.
  destruct (getitem x k) as [xk|e] eqn:Ex; cbn [bind]; [|reflexivity].
  rewrite setitem_tab1 by lia. cbn [bind].
  destruct (getitem y k) as [yk|e] eqn:Ey; cbn [bind]; [|reflexivity].
  rewrite setitem_tab1 by lia. cbn [bind].
  destruct (getitem sx k) as [sxk|e] eqn:Esx; cbn [bind]; [|reflexivity].
  rewrite Hcov.
  cbn [tab tab1 seq map set_entry get_entry nrows ncols rows Nat.ltb Nat.leb andb
       bind update nth entry].
  destruct (getitem sy k) as [syk|e] eqn:Esy; cbn [bind]; [|reflexivity].
  destruct (getitem cxy k) as [cxyk|e] eqn:Ecxy; cbn [bind]; [|reflexivity].
  cbn [tab tab1 seq map set_entry get_entry nrows ncols rows Nat.ltb Nat.leb andb
       bind update nth entry].
  change (mk_ndarray 2 2 [[sxk ^ 2; sxk * syk * cxyk]; [sxk * syk * cxyk; syk ^ 2]])
    with (point_cov sxk syk cxyk).
  destruct (inv (point_cov sxk syk cxyk)) as [ci|e] eqn:Einv; cbn [bind]; [|reflexivity].
  apply inv_point_cov_ok in Einv. subst ci.
  rewrite set_block_tab by (reflexivity || lia). cbn [bind].
  split; [reflexivity|].
  apply getitem_nth in Ex, Ey, Esx, Esy, Ecxy.
  destruct Ex as [Ex _], Ey as [Ey _], Esx as [Esx _], Esy as [Esy _], Ecxy as [Ecxy _].
  constructor; cbn [cinv cov mat_a vec_b].
  - apply tab_ext. intros a b Ha Hb. unfold cinv_after, prec_at.
    case_indices; try reflexivity; try lia.
    replace (a / 2)%nat with k by lia. rewrite Esx, Esy, Ecxy.
    f_equal; lia.
  - apply tab_ext. intros a b Ha Hb. unfold mat_a_after.
    case_indices; try reflexivity; try lia.
    + replace b with 1%nat by lia. reflexivity.
    + destruct b as [|[|b]]; try reflexivity; lia.
    + replace b with 0%nat by lia. reflexivity.
    + destruct b as [|[|b]]; try reflexivity; lia.
  - apply tab1_ext. intros a Ha. unfold vec_b_after.
    case_indices; try reflexivity; try lia.
    + replace (a / 2)%nat with k by lia. now rewrite Ey.
    + replace (a / 2)%nat with k by lia. now rewrite Ex.
  - reflexivity.
Qed.

Lemma check_points_cons (x y sx sy cxy : list R) (k : nat) (ks : list nat) :
  check_points x y sx sy cxy (k :: ks)
  = (_ <- point_outcome x y sx sy cxy k ;; check_points x y sx sy cxy ks).
Proof.
  unfold check_points. cbn [for_each].
  destruct (point_outcome x y sx sy cxy k) as [[]|e]; reflexivity.
Qed.

Lemma loop_run (x y sx sy cxy : list R) (m k : nat) (st : loop_state) :
  (k + m = length x)%nat ->
  loop_invariant x y sx sy cxy k st ->
  match for_each (map (fun i => (2 * i)%nat) (seq k m)) (loop_body x y sx sy cxy) st with
  | Ok st' => check_points x y sx sy cxy (seq k m) = Ok tt
              /\ loop_invariant x y sx sy cxy (length x) st'
  | Raise e => check_points x y sx sy cxy (seq k m) = Raise e
  end.
Proof.
  revert k st. induction m as [|m IH]; intros k st Hkm Hinv.
  - cbn. rewrite Nat.add_0_r in Hkm. subst k. now split.
  - cbn [seq map for_each]. rewrite check_points_cons.
    pose proof (loop_body_step x y sx sy cxy k st Hinv ltac:(lia)) as Hstep.
    destruct (loop_body x y sx sy cxy (2 * k) st) as [st'|e]; cbn [bind].
    + destruct Hstep as [Hpt Hinv']. rewrite Hpt. cbn [bind].
      apply IH; [lia | exact Hinv'].
    + now rewrite Hstep.
Qed.

(** ** The products with the block-diagonal matrix *)

Lemma cinv_times_mat_a (sx sy cxy : list R) (n a q : nat) :
  (a < 2 * n)%nat -> (q < 2)%nat ->
  np_sum (map (fun l => cinv_after sx sy cxy n a l * mat_a_after n l q) (seq 0 (2 * n)))
  = prec_at sx sy cxy (a / 2) (a mod 2) q.
Proof.
  intros Ha Hq. rewrite np_sum_pairs.
  rewrite (np_sum_single n (a / 2)%nat) by
    (try lia; intros i Hi Hne; unfold cinv_after, mat_a_after;
     case_indices; try lia; lra).
  unfold cinv_after, mat_a_after.
  replace (2 * (a / 2) / 2)%nat with (a / 2)%nat by lia.
  replace ((2 * (a / 2) + 1) / 2)%nat with (a / 2)%nat by lia.
  replace ((2 * (a / 2)) mod 2)%nat with 0%nat by lia.
  replace ((2 * (a / 2) + 1) mod 2)%nat with 1%nat by lia.
  rewrite Nat.eqb_refl.
  destruct (Nat.ltb_spec (a / 2) n); [|lia]. cbn [andb].
  destruct q as [|[|q]]; [| |lia]; cbn [Nat.eqb]; lra.
Qed.

Lemma cinv_times_vec_b (x y sx sy cxy : list R) (n a : nat) :
  (a < 2 * n)%nat ->
  np_sum (map (fun l => cinv_after sx sy cxy n a l * vec_b_after x y n l) (seq 0 (2 * n)))
  = prec_at sx sy cxy (a / 2) (a mod 2) 0 * nth (a / 2) x 0
    + prec_at sx sy cxy (a / 2) (a mod 2) 1 * nth (a / 2) y 0.
Proof.
  intros Ha. rewrite np_sum_pairs.
  rewrite (np_sum_single n (a / 2)%nat) by
    (try lia; intros i Hi Hne; unfold cinv_after, vec_b_after;
     case_indices; try lia; lra).
  unfold cinv_after, vec_b_after.
  replace (2 * (a / 2) / 2)%nat with (a / 2)%nat by lia.
  replace ((2 * (a / 2) + 1) / 2)%nat with (a / 2)%nat by lia.
  replace ((2 * (a / 2)) mod 2)%nat with 0%nat by lia.
  replace ((2 * (a / 2) + 1) mod 2)%nat with 1%nat by lia.
  rewrite Nat.eqb_refl.
  destruct (Nat.ltb_spec (a / 2) n); [|lia]. cbn [andb Nat.eqb]. reflexivity.
Qed.

Lemma mat_a_transpose_times (n p : nat) (g : nat -> nat -> R) :
  (p < 2)%nat ->
  np_sum (map (fun a => mat_a_after n a p * g (a / 2)%nat (a mod 2)%nat) (seq 0 (2 * n)))
  = np_sum (map (fun i => g i p) (seq 0 n)).
Proof.
  intros Hp. rewrite np_sum_pairs. apply np_sum_ext. intros i Hi.
  unfold mat_a_after.
  replace (2 * i / 2)%nat with i by lia.
  replace ((2 * i + 1) / 2)%nat with i by lia.
  replace ((2 * i) mod 2)%nat with 0%nat by lia.
  replace ((2 * i + 1) mod 2)%nat with 1%nat by lia.
  destruct (Nat.ltb_spec i n); [|lia]. cbn [andb].
  destruct p as [|[|p]]; [| |lia]; cbn [Nat.eqb]; lra.
Qed.

(** ** The normal form of [weighted_mean_twod] *)

Lemma weighted_mean_twod_normal_form (x y sx sy cxy : list R) :
  weighted_mean_twod x y sx sy cxy
  = (_ <- check_points x y sx sy cxy (seq 0 (length x)) ;;
     solve_normal (normal_sum sx sy cxy (length x))
                  (rhs_sum x y sx sy cxy (length x))).
Proof.
  unfold weighted_mean_twod. cbv zeta. rewrite py_range_pairs.
  pose proof (loop_run x y sx sy cxy (length x) 0 _ eq_refl
                (loop_invariant_init x y sx sy cxy)) as Hrun.
  destruct (for_each _ _ _) as [st|e]; cbn [bind].
  2: { now rewrite Hrun. }
  destruct Hrun as [Hchk [Hcinv Hmat Hvec _]]. rewrite Hchk. cbn [bind].
  rewrite Hcinv, Hmat, Hvec.
  rewrite np_dot_tab. cbn [bind].
  rewrite transpose_tab, np_dot_tab. cbn [bind].
  assert (En : tab 2 2 (fun i j =>
                np_sum (map (fun l => mat_a_after (length x) l i *
                   np_sum (map (fun l0 => cinv_after sx sy cxy (length x) l l0
                                          * mat_a_after (length x) l0 j)
                               (seq 0 (2 * length x))))
                  (seq 0 (2 * length x))))
               = normal_sum sx sy cxy (length x)).
  { unfold normal_sum. apply tab_ext. intros p q Hp Hq. unfold normal_entry.
    rewrite <- (mat_a_transpose_times (length x) p
                  (fun i r => prec_at sx sy cxy i r q)) by exact Hp.
    apply np_sum_ext. intros a Ha. now rewrite cinv_times_mat_a. }
  rewrite En. unfold solve_normal.
  destruct (inv (normal_sum sx sy cxy (length x))) as [covw|e]; cbn [bind]; [|reflexivity].
  rewrite np_dot_vec_tab. cbn [bind].
  rewrite np_dot_vec_tab. cbn [bind].
  assert (Er : tab1 2 (fun i =>
                np_sum (map (fun l => mat_a_after (length x) l i *
                   np_sum (map (fun l0 => cinv_after sx sy cxy (length x) l l0
                                          * vec_b_after x y (length x) l0)
                               (seq 0 (2 * length x))))
                  (seq 0 (2 * length x))))
               = rhs_sum x y sx sy cxy (length x)).
  { unfold rhs_sum. apply tab1_ext. intros p Hp. unfold rhs_entry.
    rewrite <- (mat_a_transpose_times (length x) p
                  (fun i r => prec_at sx sy cxy i r 0 * nth i x 0
                              + prec_at sx sy cxy i r 1 * nth i y 0)) by exact Hp.
    apply np_sum_ext. intros a Ha. now rewrite cinv_times_vec_b. }
  rewrite Er. reflexivity.
Qed.

(** * The block-wise computation *)

Lemma normal_sum_S (sx sy cxy : list R) (k : nat) :
  normal_sum sx sy cxy (S k)
  = tab 2 2 (fun p q => normal_entry sx sy cxy k p q + prec_at sx sy cxy k p q).
Proof.
  unfold normal_sum. apply tab_ext. intros p q _ _.
  apply (np_sum_snoc k (fun i => prec_at sx sy cxy i p q)).
Qed.

Lemma rhs_sum_S (x y sx sy cxy : list R) (k : nat) :
  rhs_sum x y sx sy cxy (S k)
  = tab1 2 (fun p =>
      rhs_entry x y sx sy cxy k p
      + (prec_at sx sy cxy k p 0 * nth k x 0 + prec_at sx sy cxy k p 1 * nth k y 0)).
Proof.
  unfold rhs_sum. apply tab1_ext. intros p _.
  apply (np_sum_snoc k
           (fun i => prec_at sx sy cxy i p 0 * nth i x 0
                     + prec_at sx sy cxy i p 1 * nth i y 0)).
Qed.

Lemma accumulate_point_step (x y sx sy cxy : list R) (k : nat) :
  match accumulate_point x y sx sy cxy k
          (normal_sum sx sy cxy k, rhs_sum x y sx sy cxy k) with
  | Ok acc' => point_outcome x y sx sy cxy k = Ok tt
               /\ acc' = (normal_sum sx sy cxy (S k), rhs_sum x y sx sy cxy (S k))
  | Raise e => point_outcome x y sx sy cxy k = Raise e
  end.
Proof.
  unfold accumulate_point, point_outcome.
  destruct (getitem x k) as [xk|e] eqn:Ex; cbn [bind]; [|reflexivity].
  destruct (getitem y k) as [yk|e] eqn:Ey; cbn [bind]; [|reflexivity].
  destruct (getitem sx k) as [sxk|e] eqn:Esx; cbn [bind]; [|reflexivity].
  destruct (getitem sy k) as [syk|e] eqn:Esy; cbn [bind]; [|reflexivity].
  destruct (getitem cxy k) as [cxyk|e] eqn:Ecxy; cbn [bind]; [|reflexivity].
  destruct (inv (point_cov sxk syk cxyk)) as [ci|e] eqn:Einv; cbn [bind]; [|reflexivity].
  apply inv_point_cov_ok in Einv. subst ci.
  apply getitem_nth in Ex, Ey, Esx, Esy, Ecxy.
  destruct Ex as [Ex _], Ey as [Ey _], Esx as [Esx _], Esy as [Esy _], Ecxy as [Ecxy _].
  assert (Hprec : forall p q,
             prec_at sx sy cxy k p q = entry (precision sxk syk cxyk) p q).
  { intros p q. unfold prec_at. now rewrite Esx, Esy, Ecxy. }
  rewrite normal_sum_S, rhs_sum_S.
  unfold normal_sum, rhs_sum, tab, tab1. cbn [seq map].
  rewrite !Hprec, Ex, Ey.
  unfold precision, np_eye2, np_dot, np_dot_vec, transpose, normal_sum, rhs_sum,
    np_add2, np_add1, tab, tab1.
  cbn [nrows ncols rows Nat.eqb seq map bind entry nth np_sum fold_right length
       zip_with fst snd].
  split; [reflexivity|].
  entrywise; ring.
Qed.

Lemma blocks_run (x y sx sy cxy : list R) (m k : nat) :
  match for_each (seq k m) (accumulate_point x y sx sy cxy)
          (normal_sum sx sy cxy k, rhs_sum x y sx sy cxy k) with
  | Ok acc' => check_points x y sx sy cxy (seq k m) = Ok tt
               /\ acc' = (normal_sum sx sy cxy (k + m), rhs_sum x y sx sy cxy (k + m))
  | Raise e => check_points x y sx sy cxy (seq k m) = Raise e
  end.
Proof.
  revert k. induction m as [|m IH]; intros k.
  - cbn. now rewrite Nat.add_0_r.
  - cbn [seq for_each]. rewrite check_points_cons.
    pose proof (accumulate_point_step x y sx sy cxy k) as Hstep.
    destruct (accumulate_point x y sx sy cxy k _) as [acc'|e]; cbn [bind].
    + destruct Hstep as [Hpt ->]. rewrite Hpt. cbn [bind].
      replace (k + S m)%nat with (S k + m)%nat by lia. apply IH.
    + now rewrite Hstep.
Qed.

Lemma weighted_mean_twod_blocks_normal_form (x y sx sy cxy : list R) :
  weighted_mean_twod_blocks x y sx sy cxy
  = (_ <- check_points x y sx sy cxy (seq 0 (length x)) ;;
     solve_normal (normal_sum sx sy cxy (length x))
                  (rhs_sum x y sx sy cxy (length x))).
Proof.
  unfold weighted_mean_twod_blocks.
  pose proof (blocks_run x y sx sy cxy (length x) 0) as Hrun.
  change (np_zeros2 2 2, np_zeros1 2)
    with (normal_sum sx sy cxy 0, rhs_sum x y sx sy cxy 0).
  destruct (for_each _ _ _) as [acc|e]; cbn [bind].
  - destruct Hrun as [Hchk ->]. rewrite Hchk. reflexivity.
  - now rewrite Hrun.
Qed.

(** The loop over the full [2N x 2N] matrices and the block-wise
    accumulation agree on every input, errors included. *)
Lemma weighted_mean_twod_blocks_agree (x y sx sy cxy : list R) :
  weighted_mean_twod x y sx sy cxy = weighted_mean_twod_blocks x y sx sy cxy.
Proof.
  now rewrite weighted_mean_twod_normal_form, weighted_mean_twod_blocks_normal_form.
Qed.

(** * Closed forms for [weighted_mean_twod] *)

Lemma np_sum_pos (n : nat) (f : nat -> R) :
  (0 < n)%nat -> (forall i, (i < n)%nat -> 0 < f i) -> 0 < np_sum (map f (seq 0 n)).
Proof.
  induction n as [|n IH]; intros Hn H; [lia|].
  rewrite np_sum_snoc.
  destruct n as [|n].
  - cbn. specialize (H 0%nat ltac:(lia)). lra.
  - specialize (IH ltac:(lia) ltac:(intros; apply H; lia)).
    specialize (H (S n) ltac:(lia)). lra.
Qed.

Lemma map_as_indexed {A : Type} (f : R -> A) (l : list R) :
  map f l = map (fun i => f (nth i l 0)) (seq 0 (length l)).
Proof.
  rewrite (list_as_tab1 l) at 1. unfold tab1. rewrite map_map. reflexivity.
Qed.

Lemma zip_with_as_indexed {A : Type} (f : R -> R -> A) (l l' : list R) :
  length l' = length l ->
  zip_with f l l' = map (fun i => f (nth i l 0) (nth i l' 0)) (seq 0 (length l)).
Proof.
  revert l'. induction l as [|a l IH]; intros [|b l'] H; simpl in H; try lia.
  - reflexivity.
  - cbn [zip_with length seq map nth]. f_equal.
    rewrite <- seq_shift, map_map. apply IH. lia.
Qed.

(** ** Positive definite 2x2 matrices *)

Lemma pdet_factor (s t c : R) : pdet s t c = (s * t) * (s * t) * (1 - c * c).
Proof. unfold pdet. ring. Qed.

Lemma Rabs_lt_1_sqr (c : R) : Rabs c < 1 -> c * c < 1.
Proof.
  intros H. apply Rabs_def2 in H. nra.
Qed.

Lemma pdet_pos (s t c : R) : 0 < s -> 0 < t -> Rabs c < 1 -> 0 < pdet s t c.
Proof.
  intros Hs Ht Hc. apply Rabs_lt_1_sqr in Hc. rewrite pdet_factor.
  assert (0 < s * t) by now apply Rmult_lt_0_compat.
  repeat apply Rmult_lt_0_compat; lra.
Qed.

Lemma pd_leading_and_det (a b d : R) :
  (forall u v, u <> 0 \/ v <> 0 -> 0 < u * (a * u + b * v) + v * (b * u + d * v)) ->
  0 < a /\ 0 < a * d - b * b.
Proof.
  intros H.
  assert (Ha : 0 < a).
  { specialize (H 1 0 ltac:(left; lra)). lra. }
  split; [exact Ha|].
  specialize (H (- b) a ltac:(right; lra)).
  assert (E : - b * (a * - b + b * a) + a * (b * - b + d * a) = a * (a * d - b * b))
    by ring.
  rewrite E in H. clear E.
  destruct (Rle_or_lt (a * d - b * b) 0) as [Hle|Hlt]; [|exact Hlt].
  exfalso. assert (a * (a * d - b * b) <= 0) by nra. lra.
Qed.

Lemma adjugate_form_pos (a b d u v : R) :
  0 < a -> 0 < a * d - b * b -> u <> 0 \/ v <> 0 ->
  0 < d * (u * u) - 2 * b * (u * v) + a * (v * v).
Proof.
  intros Ha Hdet Huv.
  assert (E : a * (d * (u * u) - 2 * b * (u * v) + a * (v * v))
              = (a * v - b * u) * (a * v - b * u) + (a * d - b * b) * (u * u)) by ring.
  assert (Hpos : 0 < (a * v - b * u) * (a * v - b * u) + (a * d - b * b) * (u * u)).
  { destruct (Req_dec u 0) as [->|Hu].
    - assert (Hv : v <> 0) by (destruct Huv; [lra | assumption]).
      assert (0 < (a * v) * (a * v)).
      { apply Rsqr_pos_lt. apply Rmult_integral_contrapositive_currified; lra. }
      nra.
    - assert (0 < u * u) by (apply Rsqr_pos_lt; exact Hu).
      assert (0 < (a * d - b * b) * (u * u)) by now apply Rmult_lt_0_compat.
      assert (0 <= (a * v - b * u) * (a * v - b * u)) by apply Rle_0_sqr.
      lra. }
  rewrite <- E in Hpos.
  destruct (Rle_or_lt (d * (u * u) - 2 * b * (u * v) + a * (v * v)) 0) as [Hle|Hlt];
    [|exact Hlt].
  exfalso.
  assert (a * (d * (u * u) - 2 * b * (u * v) + a * (v * v)) <= 0) by nra. lra.
Qed.

(** The inverse of a symmetric positive definite matrix is one. *)
Lemma inverse_quadratic_pos (a b d u v : R) :
  0 < a -> 0 < a * d - b * b -> u <> 0 \/ v <> 0 ->
  0 < u * (d / (a * d - b * b) * u + - b / (a * d - b * b) * v)
      + v * (- b / (a * d - b * b) * u + a / (a * d - b * b) * v).
Proof.
  intros Ha Hdet Huv.
  pose proof (adjugate_form_pos a b d u v Ha Hdet Huv) as Hnum.
  replace (u * (d / (a * d - b * b) * u + - b / (a * d - b * b) * v)
           + v * (- b / (a * d - b * b) * u + a / (a * d - b * b) * v))
    with ((d * (u * u) - 2 * b * (u * v) + a * (v * v)) / (a * d - b * b))
    by (field; lra).
  now apply Rdiv_lt_0_compat.
Qed.

(** The precision matrix of a valid point is positive definite. *)
Lemma precision_quadratic_pos (s t c u v : R) :
  0 < s -> 0 < t -> Rabs c < 1 -> u <> 0 \/ v <> 0 ->
  0 < quadratic_form (precision s t c) u v.
Proof.
  intros Hs Ht Hc Huv.
  pose proof (pdet_pos s t c Hs Ht Hc) as Hdet. unfold pdet in Hdet.
  unfold quadratic_form, precision. cbn [entry rows nth].
  apply inverse_quadratic_pos; [nra | exact Hdet | exact Huv].
Qed.

Lemma point_cov_positive_definite (s t c : R) :
  0 < s -> 0 < t -> Rabs c < 1 -> positive_definite (point_cov s t c).
Proof.
  intros Hs Ht Hc u v Huv.
  pose proof (pdet_pos s t c Hs Ht Hc) as Hdet. unfold pdet in Hdet.
  unfold quadratic_form, point_cov. cbn [entry rows nth].
  assert (H : 0 < (t ^ 2) * (v * v) - 2 * (- (s * t * c)) * (v * u) + (s ^ 2) * (u * u)).
  { apply adjugate_form_pos; [nra | | tauto].
    replace (s ^ 2 * t ^ 2 - - (s * t * c) * - (s * t * c))
      with (s ^ 2 * t ^ 2 - s * t * c * (s * t * c)) by ring.
    exact Hdet. }
  nra.
Qed.

(** ** When the points pass their checks *)

Lemma point_outcome_ok (x y sx sy cxy : list R) (k : nat) :
  (k < length x)%nat -> (k < length y)%nat -> (k < length sx)%nat ->
  (k < length sy)%nat -> (k < length cxy)%nat ->
  pdet (nth k sx 0) (nth k sy 0) (nth k cxy 0) <> 0 ->
  point_outcome x y sx sy cxy k = Ok tt.
Proof.
  intros Hx Hy Hsx Hsy Hcxy Hdet. unfold point_outcome.
  rewrite !getitem_in_range by assumption. cbn [bind].
  rewrite inv_point_cov. fold (pdet (nth k sx 0) (nth k sy 0) (nth k cxy 0)).
  destruct (Req_dec_T _ 0); [contradiction | reflexivity].
Qed.

Lemma point_outcome_cases (x y sx sy cxy : list R) (k : nat) :
  point_outcome x y sx sy cxy k = Ok tt
  \/ point_outcome x y sx sy cxy k = Raise IndexError
  \/ point_outcome x y sx sy cxy k = Raise LinAlgError.
Proof.
  unfold point_outcome, getitem.
  destruct (nth_error x k); cbn [bind]; [|tauto].
  destruct (nth_error y k); cbn [bind]; [|tauto].
  destruct (nth_error sx k); cbn [bind]; [|tauto].
  destruct (nth_error sy k); cbn [bind]; [|tauto].
  destruct (nth_error cxy k); cbn [bind]; [|tauto].
  rewrite inv_point_cov. destruct (Req_dec_T _ 0); cbn [bind]; tauto.
Qed.

Lemma check_points_ok (x y sx sy cxy : list R) (ks : list nat) :
  (forall k, In k ks -> point_outcome x y sx sy cxy k = Ok tt) ->
  check_points x y sx sy cxy ks = Ok tt.
Proof.
  induction ks as [|k ks IH]; intros H; [reflexivity|].
  rewrite check_points_cons, (H k) by now left. cbn [bind].
  apply IH. intros k' Hk'. apply H. now right.
Qed.

Lemma check_points_raises (x y sx sy cxy : list R) (ks : list nat) (k : nat) (e : exn) :
  In k ks -> point_outcome x y sx sy cxy k = Raise e ->
  check_points x y sx sy cxy ks = Raise IndexError
  \/ check_points x y sx sy cxy ks = Raise LinAlgError.
Proof.
  induction ks as [|k' ks IH]; intros Hin Hk; [contradiction|].
  rewrite check_points_cons.
  destruct (point_outcome_cases x y sx sy cxy k') as [H|[H|H]];
    rewrite H; cbn [bind]; try tauto.
  destruct Hin as [->|Hin]; [congruence|]. now apply IH.
Qed.

(** With every array of the length of [x], the only failure is a singular
    covariance. *)
Lemma check_points_singular (x y sx sy cxy : list R) (ks : list nat) :
  length y = length x -> length sx = length x ->
  length sy = length x -> length cxy = length x ->
  (forall k, In k ks -> (k < length x)%nat) ->
  check_points x y sx sy cxy ks = Ok tt
  \/ check_points x y sx sy cxy ks = Raise LinAlgError.
Proof.
  intros Hy Hsx Hsy Hcxy.
  induction ks as [|k ks IH]; intros Hks; [now left|].
  rewrite check_points_cons.
  assert (Hk : (k < length x)%nat) by (apply Hks; now left).
  assert (Hpt : point_outcome x y sx sy cxy k = Ok tt
                \/ point_outcome x y sx sy cxy k = Raise LinAlgError).
  { unfold point_outcome. rewrite !getitem_in_range by lia. cbn [bind].
    rewrite inv_point_cov. destruct (Req_dec_T _ 0); cbn [bind]; tauto. }
  destruct Hpt as [-> | ->]; cbn [bind]; [|now right].
  apply IH. intros k' Hk'. apply Hks. now right.
Qed.

Lemma solve_normal_tab (g : nat -> nat -> R) (r : nat -> R) :
  let a := g 0%nat 0%nat in
  let b := g 0%nat 1%nat in
  let c := g 1%nat 0%nat in
  let d := g 1%nat 1%nat in
  let det := a * d - b * c in
  solve_normal (tab 2 2 g) (tab1 2 r)
  = if Req_dec_T det 0
    then Raise LinAlgError
    else
      Ok (d / det * r 0%nat + (- b / det * r 1%nat + 0),
          - c / det * r 0%nat + (a / det * r 1%nat + 0),
          mk_ndarray 2 2 [[d / det; - b / det]; [- c / det; a / det]]).
Proof.
  unfold solve_normal, inv. cbn [tab tab1 seq map nrows ncols rows Nat.eqb andb entry nth].
  cbv zeta. destruct (Req_dec_T _ 0); reflexivity.
Qed.

Lemma valid_input_checks (x y sx sy cxy : list R) :
  valid_input x y sx sy cxy ->
  check_points x y sx sy cxy (seq 0 (length x)) = Ok tt.
Proof.
  intros (_ & Hy & Hsx & Hsy & Hcxy & Psx & Psy & Pcxy).
  apply check_points_ok. intros k Hk. apply in_seq in Hk.
  apply point_outcome_ok; try lia.
  assert (0 < pdet (nth k sx 0) (nth k sy 0) (nth k cxy 0)); [|lra].
  apply pdet_pos.
  - apply (proj1 (Forall_nth _ sx) Psx). lia.
  - apply (proj1 (Forall_nth _ sy) Psy). lia.
  - apply (proj1 (Forall_nth _ cxy) Pcxy). lia.
Qed.

Lemma normal_entry_symmetric (sx sy cxy : list R) (n : nat) :
  normal_entry sx sy cxy n 1 0 = normal_entry sx sy cxy n 0 1.
Proof. reflexivity. Qed.

Lemma normal_quadratic_form (sx sy cxy : list R) (n : nat) (u v : R) :
  u * (normal_entry sx sy cxy n 0 0 * u + normal_entry sx sy cxy n 0 1 * v)
  + v * (normal_entry sx sy cxy n 1 0 * u + normal_entry sx sy cxy n 1 1 * v)
  = np_sum (map (fun i => quadratic_form
                            (precision (nth i sx 0) (nth i sy 0) (nth i cxy 0)) u v)
                (seq 0 n)).
Proof.
  unfold normal_entry.
  induction n as [|n IH]; [cbn; lra|].
  rewrite !np_sum_snoc, <- IH. unfold quadratic_form, prec_at. ring.
Qed.

Lemma normal_quadratic_pos (x y sx sy cxy : list R) (u v : R) :
  valid_input x y sx sy cxy -> u <> 0 \/ v <> 0 ->
  0 < u * (normal_entry sx sy cxy (length x) 0 0 * u
           + normal_entry sx sy cxy (length x) 0 1 * v)
      + v * (normal_entry sx sy cxy (length x) 0 1 * u
             + normal_entry sx sy cxy (length x) 1 1 * v).
Proof.
  intros (HN & Hy & Hsx & Hsy & Hcxy & Psx & Psy & Pcxy) Huv.
  rewrite <- (normal_entry_symmetric sx sy cxy (length x)) at 2.
  rewrite normal_quadratic_form.
  apply np_sum_pos; [lia|]. intros i Hi.
  apply precision_quadratic_pos; try exact Huv.
  - apply (proj1 (Forall_nth _ sx) Psx). lia.
  - apply (proj1 (Forall_nth _ sy) Psy). lia.
  - apply (proj1 (Forall_nth _ cxy) Pcxy). lia.
Qed.

(** The result on a valid input, in terms of the summed precision
    matrix [[a, b], [b, d]] and right-hand side [(r0, r1)]. *)
Lemma weighted_mean_twod_valid (x y sx sy cxy : list R) :
  valid_input x y sx sy cxy ->
  let a := normal_entry sx sy cxy (length x) 0 0 in
  let b := normal_entry sx sy cxy (length x) 0 1 in
  let d := normal_entry sx sy cxy (length x) 1 1 in
  let r0 := rhs_entry x y sx sy cxy (length x) 0 in
  let r1 := rhs_entry x y sx sy cxy (length x) 1 in
  let det := a * d - b * b in
  0 < a /\ 0 < det /\
  weighted_mean_twod x y sx sy cxy
  = Ok (d / det * r0 + (- b / det * r1 + 0),
        - b / det * r0 + (a / det * r1 + 0),
        mk_ndarray 2 2 [[d / det; - b / det]; [- b / det; a / det]]).
Proof.
  intros Hvalid a b d r0 r1 det.
  destruct (pd_leading_and_det a b d
              (fun u v => normal_quadratic_pos x y sx sy cxy u v Hvalid)) as [Ha Hdet].
  split; [exact Ha|]. split; [exact Hdet|].
  rewrite weighted_mean_twod_normal_form, valid_input_checks by exact Hvalid.
  cbn [bind]. unfold normal_sum, rhs_sum. rewrite solve_normal_tab. cbv zeta.
  rewrite normal_entry_symmetric. fold a b d r0 r1. fold det.
  destruct (Req_dec_T det 0) as [E|_]; [|reflexivity].
  exfalso. unfold det in E. lra.
Qed.

(** ** A single point *)

Lemma weighted_mean_twod_single (x0 y0 s t c : R) :
  s <> 0 -> t <> 0 -> c * c <> 1 ->
  weighted_mean_twod [x0] [y0] [s] [t] [c] = Ok (x0, y0, point_cov s t c).
Proof.
  intros Hs Ht Hc.
  assert (Hdet : pdet s t c <> 0).
  { rewrite pdet_factor. repeat apply Rmult_integral_contrapositive_currified; lra. }
  rewrite weighted_mean_twod_normal_form.
  rewrite check_points_ok.
  2: { intros k Hk. apply in_seq in Hk. cbn [length] in Hk.
       assert (k = 0%nat) as -> by lia.
       apply point_outcome_ok; cbn [length nth]; try lia. exact Hdet. }
  cbn [bind]. unfold normal_sum, rhs_sum. rewrite solve_normal_tab.
  unfold normal_entry, rhs_entry, prec_at, precision.
  cbn [length seq map np_sum fold_right nth entry rows]. cbv zeta.
  unfold pdet in Hdet.
  assert (Hdet' : (s * t) ^ 2 - s * t * c * (s * t * c) <> 0).
  { intro Hz. apply Hdet. rewrite <- Hz. ring. }
  set (det := s ^ 2 * t ^ 2 - s * t * c * (s * t * c)) in *.
  assert (E : (t ^ 2 / det + 0) * (s ^ 2 / det + 0)
              - (- (s * t * c) / det + 0) * (- (s * t * c) / det + 0)
              = / det).
  { unfold det. field. exact Hdet'. }
  rewrite E.
  destruct (Req_dec_T (/ det) 0) as [E0|_].
  - exfalso. revert E0. now apply Rinv_neq_0_compat.
  - unfold point_cov. entrywise.
    all: unfold det; field; exact Hdet'.
Qed.

(** The model of [numpy.linalg.inv] returns the inverse. *)
Lemma inv_is_inverse (a b c d : R) (m' : ndarray) :
  inv (mk_ndarray 2 2 [[a; b]; [c; d]]) = Ok m' ->
  np_dot (mk_ndarray 2 2 [[a; b]; [c; d]]) m' = Ok np_eye2
  /\ np_dot m' (mk_ndarray 2 2 [[a; b]; [c; d]]) = Ok np_eye2.
Proof.
  unfold inv. cbn [nrows ncols rows Nat.eqb andb entry nth].
  destruct (Req_dec_T (a * d - b * c) 0) as [|Hdet]; [discriminate|].
  intros [= <-]. unfold np_dot, np_eye2.
  cbn [nrows ncols rows Nat.eqb seq map entry nth np_sum fold_right].
  split; entrywise; field; exact Hdet.
Qed.

(** * The weighted mean in two dimensions *)

(** ** Uncorrelated measurements *)

Lemma uncorrelated_precision (s t : R) :
  0 < s -> 0 < t ->
  entry (precision s t 0) 0 0 = 1 / s ^ 2
  /\ entry (precision s t 0) 0 1 = 0
  /\ entry (precision s t 0) 1 1 = 1 / t ^ 2.
Proof.
  intros Hs Ht. unfold precision. cbn [entry rows nth].
  repeat split; field; nra.
Qed.

Lemma uncorrelated_sums (x y sx sy cxy : list R) :
  length y = length x -> length sx = length x ->
  length sy = length x -> length cxy = length x ->
  Forall (fun c => c = 0) cxy ->
  Forall (fun s => 0 < s) sx -> Forall (fun s => 0 < s) sy ->
  normal_entry sx sy cxy (length x) 0 0 = np_sum (map (fun s => 1 / s ^ 2) sx)
  /\ normal_entry sx sy cxy (length x) 0 1 = 0
  /\ normal_entry sx sy cxy (length x) 1 1 = np_sum (map (fun s => 1 / s ^ 2) sy)
  /\ rhs_entry x y sx sy cxy (length x) 0 = np_sum (zip_with (fun a s => a / s ^ 2) x sx)
  /\ rhs_entry x y sx sy cxy (length x) 1 = np_sum (zip_with (fun a s => a / s ^ 2) y sy).
Proof.
  intros Hy Hsx Hsy Hcxy Zc Psx Psy.
  assert (Hpt : forall i, (i < length x)%nat ->
            prec_at sx sy cxy i 0 0 = 1 / nth i sx 0 ^ 2
            /\ prec_at sx sy cxy i 0 1 = 0
            /\ prec_at sx sy cxy i 1 0 = 0
            /\ prec_at sx sy cxy i 1 1 = 1 / nth i sy 0 ^ 2).
  { intros i Hi. unfold prec_at.
    rewrite (proj1 (Forall_nth _ cxy) Zc i 0) by lia.
    destruct (uncorrelated_precision (nth i sx 0) (nth i sy 0)) as (E00 & E01 & E11).
    - apply (proj1 (Forall_nth _ sx) Psx). lia.
    - apply (proj1 (Forall_nth _ sy) Psy). lia.
    - repeat split; assumption. }
  unfold normal_entry, rhs_entry.
  rewrite (map_as_indexed (fun s => 1 / s ^ 2) sx), (map_as_indexed (fun s => 1 / s ^ 2) sy).
  rewrite (zip_with_as_indexed (fun a s => a / s ^ 2) x sx) by exact Hsx.
  rewrite (zip_with_as_indexed (fun a s => a / s ^ 2) y sy) by congruence.
  rewrite Hsx, Hsy, Hy.
  repeat split.
  - apply np_sum_ext. intros i Hi. apply (Hpt i Hi).
  - apply np_sum_zero. intros i Hi. apply (Hpt i Hi).
  - apply np_sum_ext. intros i Hi. apply (Hpt i Hi).
  - apply np_sum_ext. intros i Hi.
    destruct (Hpt i Hi) as (-> & -> & _). unfold Rdiv. ring.
  - apply np_sum_ext. intros i Hi.
    destruct (Hpt i Hi) as (_ & _ & -> & ->). unfold Rdiv. ring.
Qed.

(** C2: with all correlations zero and positive uncertainties, [wx] and
    [wy] are the classic inverse-variance weighted means of [x] and of
    [y]. *)
Theorem weighted_mean_twod_uncorrelated (x y sx sy cxy : list R) :
  (1 <= length x)%nat ->
  length y = length x -> length sx = length x ->
  length sy = length x -> length cxy = length x ->
  Forall (fun c => c = 0) cxy ->
  Forall (fun s => 0 < s) sx -> Forall (fun s => 0 < s) sy ->
  exists covw : ndarray,
    weighted_mean_twod x y sx sy cxy
    = Ok (inverse_variance_mean x sx, inverse_variance_mean y sy, covw).
Proof.
  intros HN Hy Hsx Hsy Hcxy Zc Psx Psy.
  assert (Hvalid : valid_input x y sx sy cxy).
  { repeat split; try assumption.
    eapply Forall_impl; [|exact Zc]. intros c ->. rewrite Rabs_R0. lra. }
  destruct (weighted_mean_twod_valid x y sx sy cxy Hvalid) as (Ha & Hdet & Hres).
  destruct (uncorrelated_sums x y sx sy cxy Hy Hsx Hsy Hcxy Zc Psx Psy)
    as (E00 & E01 & E11 & Er0 & Er1).
  rewrite Hres. clear Hres.
  rewrite E01 in *. unfold inverse_variance_mean.
  rewrite <- E00, <- E11, <- Er0, <- Er1.
  set (a := normal_entry sx sy cxy (length x) 0 0) in *.
  set (d := normal_entry sx sy cxy (length x) 1 1) in *.
  assert (Hd : 0 < d) by nra.
  eexists. entrywise; try reflexivity; field; lra.
Qed.

Lemma weighted_mean_twod_uncorrelated_witness :
  exists covw : ndarray,
    weighted_mean_twod [1; 3] [2; 4] [1; 2] [1; 3] [0; 0]
    = Ok (inverse_variance_mean [1; 3] [1; 2], inverse_variance_mean [2; 4] [1; 3], covw).
Proof.
  apply (weighted_mean_twod_uncorrelated [1; 3] [2; 4] [1; 2] [1; 3] [0; 0]);
    try reflexivity; try (simpl; lia); repeat constructor; lra.
Defined.

(** ** One measurement *)

(** C3: a single measurement with positive uncertainties and
    [|cxy| < 1] is returned as it is, with its own covariance matrix. *)
Theorem weighted_mean_twod_one_point (x0 y0 sx0 sy0 cxy0 : R) :
  0 < sx0 -> 0 < sy0 -> Rabs cxy0 < 1 ->
  weighted_mean_twod [x0] [y0] [sx0] [sy0] [cxy0]
  = Ok (x0, y0,
        mk_ndarray 2 2 [[sx0 ^ 2; cxy0 * sx0 * sy0]; [cxy0 * sx0 * sy0; sy0 ^ 2]]).
Proof.
  intros Hs Ht Hc. apply Rabs_lt_1_sqr in Hc.
  rewrite weighted_mean_twod_single by lra.
  unfold point_cov. entrywise; ring.
Qed.

Lemma weighted_mean_twod_one_point_witness :
  weighted_mean_twod [1] [2] [3] [4] [1 / 2]
  = Ok (1, 2, mk_ndarray 2 2 [[3 ^ 2; 1 / 2 * 3 * 4]; [1 / 2 * 3 * 4; 4 ^ 2]]).
Proof.
  apply (weighted_mean_twod_one_point 1 2 3 4 (1 / 2)); try lra.
  apply Rabs_def1; lra.
Defined.

(** ** The covariance of the weighted mean *)

(** C4 (amended): over the reals, the [covw] computed on a valid input is
    symmetric and positive definite.  (In binary64 the two off-diagonal
    entries can be rounded apart; the call is evaluated there further
    down.) *)
Theorem weighted_mean_twod_covw_spd (x y sx sy cxy : list R) :
  valid_input x y sx sy cxy ->
  exists (wx wy : R) (covw : ndarray),
    weighted_mean_twod x y sx sy cxy = Ok (wx, wy, covw)
    /\ nrows covw = 2%nat /\ ncols covw = 2%nat
    /\ symmetric covw /\ positive_definite covw.
Proof.
  intros Hvalid.
  destruct (weighted_mean_twod_valid x y sx sy cxy Hvalid) as (Ha & Hdet & Hres).
  do 3 eexists. split; [exact Hres|].
  split; [reflexivity|]. split; [reflexivity|]. split; [reflexivity|].
  intros u v Huv. unfold quadratic_form. cbn [entry rows nth].
  now apply inverse_quadratic_pos.
Qed.

Lemma weighted_mean_twod_covw_spd_witness :
  exists (wx wy : R) (covw : ndarray),
    weighted_mean_twod [1; 3] [2; 4] [1; 2] [1; 3] [1 / 2; - (1 / 3)] = Ok (wx, wy, covw)
    /\ nrows covw = 2%nat /\ ncols covw = 2%nat
    /\ symmetric covw /\ positive_definite covw.
Proof.
  apply (weighted_mean_twod_covw_spd [1; 3] [2; 4] [1; 2] [1; 3] [1 / 2; - (1 / 3)]).
  unfold valid_input.
  repeat split; try reflexivity; try (simpl; lia);
    repeat constructor; try lra; apply Rabs_def1; lra.
Defined.

(** ** Block-wise accumulation *)

(** C5: on a valid input the block-wise accumulation of
    [sum_i A_i^T Cinv_i A_i] and [sum_i A_i^T Cinv_i b_i] returns exactly
    what the construction with the full [2N x 2N] precision matrix, the
    [2N x 2] design matrix and the [2N] observation vector returns. *)
Theorem weighted_mean_twod_blocks_refines (x y sx sy cxy : list R) :
  valid_input x y sx sy cxy ->
  exists (wx wy : R) (covw : ndarray),
    weighted_mean_twod x y sx sy cxy = Ok (wx, wy, covw)
    /\ weighted_mean_twod_blocks x y sx sy cxy = Ok (wx, wy, covw).
Proof.
  intros Hvalid.
  destruct (weighted_mean_twod_valid x y sx sy cxy Hvalid) as (_ & _ & Hres).
  do 3 eexists. split; [exact Hres|].
  now rewrite <- weighted_mean_twod_blocks_agree.
Qed.

Lemma weighted_mean_twod_blocks_refines_witness :
  exists (wx wy : R) (covw : ndarray),
    weighted_mean_twod [1; 3] [2; 4] [1; 2] [1; 3] [1 / 2; - (1 / 3)] = Ok (wx, wy, covw)
    /\ weighted_mean_twod_blocks [1; 3] [2; 4] [1; 2] [1; 3] [1 / 2; - (1 / 3)]
       = Ok (wx, wy, covw).
Proof.
  apply (weighted_mean_twod_blocks_refines [1; 3] [2; 4] [1; 2] [1; 3] [1 / 2; - (1 / 3)]).
  unfold valid_input.
  repeat split; try reflexivity; try (simpl; lia);
    repeat constructor; try lra; apply Rabs_def1; lra.
Defined.

(** ** Failures *)

Lemma weighted_mean_twod_check_fails (x y sx sy cxy : list R) (e : exn) :
  check_points x y sx sy cxy (seq 0 (length x)) = Raise e ->
  weighted_mean_twod x y sx sy cxy = Raise e.
Proof.
  intros H. now rewrite weighted_mean_twod_normal_form, H.
Qed.

Lemma point_outcome_short (x y sx sy cxy : list R) (k : nat) :
  (length y <= k \/ length sx <= k \/ length sy <= k \/ length cxy <= k)%nat ->
  raises (point_outcome x y sx sy cxy k).
Proof.
  intros H. unfold point_outcome, raises.
  destruct (getitem x k) as [xk|e]; cbn [bind]; [|eauto].
  destruct (Nat.le_gt_cases (length y) k) as [Hy|Hy];
    [rewrite (getitem_out_of_range y) by exact Hy; cbn [bind]; eauto|].
  rewrite (getitem_in_range y) by exact Hy. cbn [bind].
  destruct (Nat.le_gt_cases (length sx) k) as [Hsx|Hsx];
    [rewrite (getitem_out_of_range sx) by exact Hsx; cbn [bind]; eauto|].
  rewrite (getitem_in_range sx) by exact Hsx. cbn [bind].
  destruct (Nat.le_gt_cases (length sy) k) as [Hsy|Hsy];
    [rewrite (getitem_out_of_range sy) by exact Hsy; cbn [bind]; eauto|].
  rewrite (getitem_in_range sy) by exact Hsy. cbn [bind].
  rewrite (getitem_out_of_range cxy) by lia. cbn [bind]. eauto.
Qed.

Lemma pdet_singular (s t c : R) :
  s = 0 \/ t = 0 \/ Rabs c = 1 -> pdet s t c = 0.
Proof.
  rewrite pdet_factor. intros [-> | [-> | Hc]]; try ring.
  assert (E : c * c = 1).
  { unfold Rabs in Hc. destruct (Rcase_abs c); nra. }
  rewrite E. ring.
Qed.

Lemma point_outcome_singular (x y sx sy cxy : list R) (k : nat) :
  nth k sx 0 = 0 \/ nth k sy 0 = 0 \/ Rabs (nth k cxy 0) = 1 ->
  raises (point_outcome x y sx sy cxy k).
Proof.
  intros Hsing.
  destruct (Nat.le_gt_cases (length y) k) as [Hy|Hy];
    [apply point_outcome_short; tauto|].
  destruct (Nat.le_gt_cases (length sx) k) as [Hsx|Hsx];
    [apply point_outcome_short; tauto|].
  destruct (Nat.le_gt_cases (length sy) k) as [Hsy|Hsy];
    [apply point_outcome_short; tauto|].
  destruct (Nat.le_gt_cases (length cxy) k) as [Hcxy|Hcxy];
    [apply point_outcome_short; tauto|].
  unfold point_outcome, raises.
  destruct (getitem x k) as [xk|e]; cbn [bind]; [|eauto].
  rewrite !getitem_in_range by assumption. cbn [bind].
  rewrite inv_point_cov. fold (pdet (nth k sx 0) (nth k sy 0) (nth k cxy 0)).
  rewrite (pdet_singular _ _ _ Hsing).
  destruct (Req_dec_T 0 0); [cbn [bind]; eauto | contradiction].
Qed.

Lemma weighted_mean_twod_point_fails (x y sx sy cxy : list R) (k : nat) :
  (k < length x)%nat -> raises (point_outcome x y sx sy cxy k) ->
  weighted_mean_twod x y sx sy cxy = Raise IndexError
  \/ weighted_mean_twod x y sx sy cxy = Raise LinAlgError.
Proof.
  intros Hk [e He].
  destruct (check_points_raises x y sx sy cxy (seq 0 (length x)) k e) as [H|H];
    [apply in_seq; lia | exact He | |];
    [left | right]; now apply weighted_mean_twod_check_fails.
Qed.

Lemma weighted_mean_twod_empty (y sx sy cxy : list R) :
  weighted_mean_twod [] y sx sy cxy = Raise LinAlgError.
Proof.
  rewrite weighted_mean_twod_normal_form. cbn [length seq check_points for_each bind].
  unfold normal_sum, rhs_sum. rewrite solve_normal_tab. cbv zeta.
  unfold normal_entry. cbn [seq map np_sum fold_right].
  destruct (Req_dec_T _ 0) as [_|Hne]; [reflexivity|].
  exfalso. apply Hne. ring.
Qed.

(** C6 (amended): the function validates nothing itself, but it raises
    whenever an array is too short for the loop ([IndexError]), some point
    has an uncertainty that is zero, [sx_k = 0] or [sy_k = 0] at an index
    [k < len(x)], or there is no point at all ([LinAlgError]): a zero
    uncertainty makes a row of that point's covariance zero, and no
    point leaves the zero matrix to invert. *)
Theorem weighted_mean_twod_raises (x y sx sy cxy : list R) :
  (length y < length x)%nat \/ (length sx < length x)%nat
  \/ (length sy < length x)%nat \/ (length cxy < length x)%nat
  \/ x = []
  \/ (exists k, (k < length x)%nat /\ (nth k sx 0 = 0 \/ nth k sy 0 = 0)) ->
  weighted_mean_twod x y sx sy cxy = Raise IndexError
  \/ weighted_mean_twod x y sx sy cxy = Raise LinAlgError.
Proof.
  intros [H | [H | [H | [H | [H | (k & Hk & H)]]]]].
  - apply (weighted_mean_twod_point_fails x y sx sy cxy (length y) H).
    apply point_outcome_short. lia.
  - apply (weighted_mean_twod_point_fails x y sx sy cxy (length sx) H).
    apply point_outcome_short. lia.
  - apply (weighted_mean_twod_point_fails x y sx sy cxy (length sy) H).
    apply point_outcome_short. lia.
  - apply (weighted_mean_twod_point_fails x y sx sy cxy (length cxy) H).
    apply point_outcome_short. lia.
  - subst x. right. apply weighted_mean_twod_empty.
  - apply (weighted_mean_twod_point_fails x y sx sy cxy k Hk).
    apply point_outcome_singular. tauto.
Qed.

Lemma weighted_mean_twod_raises_witness :
  weighted_mean_twod [1; 2] [3; 4] [1; 1] [1; 0] [0; 0] = Raise IndexError
  \/ weighted_mean_twod [1; 2] [3; 4] [1; 1] [1; 0] [0; 0] = Raise LinAlgError.
Proof.
  apply (weighted_mean_twod_raises [1; 2] [3; 4] [1; 1] [1; 0] [0; 0]).
  do 5 right. exists 1%nat. split; [simpl; lia|]. right. reflexivity.
Defined.

(** C6 as stated fails: a negative uncertainty is accepted and a result
    is returned. *)
Lemma weighted_mean_twod_accepts_negative_sx :
  Exists (fun s => s <= 0) [-1]
  /\ weighted_mean_twod [0] [0] [-1] [1] [0] = Ok (0, 0, point_cov (-1) 1 0)
  /\ ~ raises (weighted_mean_twod [0] [0] [-1] [1] [0]).
Proof.
  assert (E : weighted_mean_twod [0] [0] [-1] [1] [0] = Ok (0, 0, point_cov (-1) 1 0))
    by (apply weighted_mean_twod_single; lra).
  split; [constructor; lra|]. split; [exact E|].
  intros [e He]. rewrite E in He. discriminate.
Qed.

(** C8: when [sx] (an array of the length of [x]) contains a zero, the
    call raises: [LinAlgError] ("Singular matrix") from the inversion of
    that point's covariance, or [IndexError] when another array is too
    short; with all five arrays of one length it is [LinAlgError]. *)
Theorem weighted_mean_twod_zero_sx (x y sx sy cxy : list R) :
  length sx = length x ->
  In 0 sx ->
  (weighted_mean_twod x y sx sy cxy = Raise LinAlgError
   \/ weighted_mean_twod x y sx sy cxy = Raise IndexError)
  /\ (length y = length x -> length sy = length x -> length cxy = length x ->
      weighted_mean_twod x y sx sy cxy = Raise LinAlgError).
Proof.
  intros Hsx Hin.
  destruct (In_nth sx 0 0 Hin) as (k & Hk & Hz).
  assert (Hfail : weighted_mean_twod x y sx sy cxy = Raise IndexError
                  \/ weighted_mean_twod x y sx sy cxy = Raise LinAlgError).
  { apply (weighted_mean_twod_point_fails x y sx sy cxy k); [lia|].
    apply point_outcome_singular. now left. }
  split; [tauto|].
  intros Hy Hsy Hcxy.
  destruct Hfail as [Hidx|Hlin]; [|exact Hlin].
  exfalso. rewrite weighted_mean_twod_normal_form in Hidx.
  destruct (check_points_singular x y sx sy cxy (seq 0 (length x)) Hy Hsx Hsy Hcxy)
    as [Hok|Hraise].
  - intros k' Hk'. apply in_seq in Hk'. lia.
  - rewrite Hok in Hidx. cbn [bind] in Hidx.
    unfold normal_sum, rhs_sum in Hidx. rewrite solve_normal_tab in Hidx.
    cbv zeta in Hidx. destruct (Req_dec_T _ 0); discriminate.
  - rewrite Hraise in Hidx. discriminate.
Qed.

Lemma weighted_mean_twod_zero_sx_witness :
  (weighted_mean_twod [1; 2] [3; 4] [1; 0] [1; 1] [0; 0] = Raise LinAlgError
   \/ weighted_mean_twod [1; 2] [3; 4] [1; 0] [1; 1] [0; 0] = Raise IndexError)
  /\ (length [3; 4] = length [1; 2] -> length [1; 1] = length [1; 2] ->
      length [0; 0] = length [1; 2] ->
      weighted_mean_twod [1; 2] [3; 4] [1; 0] [1; 1] [0; 0] = Raise LinAlgError).
Proof.
  apply (weighted_mean_twod_zero_sx [1; 2] [3; 4] [1; 0] [1; 1] [0; 0]).
  - reflexivity.
  - simpl. right. left. reflexivity.
Defined.

(** * The closed form of [inv] and the factorisation

    Over the reals the factorisation with row pivoting raises exactly
    when the determinant is zero and otherwise returns the closed form,
    entry by entry: [inv] is what the library's algorithm computes when
    nothing is rounded. *)

Lemma lu_pivot_zero (a c : R) : ~ Rabs a < Rabs c -> a = 0 -> c = 0.
Proof.
  intros H ->. rewrite Rabs_R0 in H.
  destruct (Req_dec c 0) as [E|E]; [exact E|].
  exfalso. apply H. now apply Rabs_pos_lt.
Qed.

Lemma lu_swapped_pivot (a c : R) : Rabs a < Rabs c -> c <> 0.
Proof.
  intros H ->. rewrite Rabs_R0 in H. pose proof (Rabs_pos a). lra.
Qed.

Theorem inv_lu_closed_form (m : ndarray) : inv_lu m = inv m.
Proof.
  unfold inv_lu, inv.
  destruct (andb (Nat.eqb (nrows m) 2) (Nat.eqb (ncols m) 2)); [|reflexivity].
  set (a := entry m 0 0). set (b := entry m 0 1).
  set (c := entry m 1 0). set (d := entry m 1 1).
  cbv zeta. unfold lu_factor.
  destruct (Rlt_dec (Rabs a) (Rabs c)) as [Hswap|Hkeep]; cbv iota beta zeta.
  - pose proof (lu_swapped_pivot a c Hswap) as Hc.
    destruct (Req_dec_T c 0) as [E|_]; [contradiction|].
    assert (Hu : b - a * (1 / c) * d = - (a * d - b * c) / c) by (field; exact Hc).
    destruct (Req_dec_T (b - a * (1 / c) * d) 0) as [E|Hne];
      destruct (Req_dec_T (a * d - b * c) 0) as [Hdet|Hdet]; try reflexivity.
    + exfalso. rewrite Hu in E. apply Hdet.
      apply (Rmult_eq_compat_r c) in E. field_simplify in E; [lra|exact Hc].
    + exfalso. apply Hne. rewrite Hu, Hdet. field. exact Hc.
    + unfold lu_solve. cbv iota beta zeta.
      assert (Hdet' : b * c - a * d <> 0) by lra.
      entrywise; field; repeat split; assumption.
  - destruct (Req_dec_T a 0) as [Ea|Ha].
    + pose proof (lu_pivot_zero a c Hkeep Ea) as Ec.
      destruct (Req_dec_T (a * d - b * c) 0) as [_|Hdet]; [reflexivity|].
      exfalso. apply Hdet. rewrite Ea, Ec. ring.
    + assert (Hu : d - c * (1 / a) * b = (a * d - b * c) / a) by (field; exact Ha).
      destruct (Req_dec_T (d - c * (1 / a) * b) 0) as [E|Hne];
        destruct (Req_dec_T (a * d - b * c) 0) as [Hdet|Hdet]; try reflexivity.
      * exfalso. rewrite Hu in E. apply Hdet.
        apply (Rmult_eq_compat_r a) in E. field_simplify in E; [lra|exact Ha].
      * exfalso. apply Hne. rewrite Hu, Hdet. field. exact Ha.
      * unfold lu_solve. cbv iota beta zeta.
        entrywise; field; repeat split; assumption.
Qed.

(** * What rounding does to the two weighted means

    The values below are the binary64 numbers themselves, written in
    hexadecimal; the comments give their shortest decimal form. *)

Section Binary64Evaluation.

Import PrimFloat.
Local Open Scope float_scope.

(** One point is returned as it is, covariance included: every operation
    of the two inversions is exact on [[9, 6], [6, 16]]. *)
Example binary64_one_point :
  Binary64.weighted_mean_twod [1] [2] [3] [4] [0.5]
  = Ok (1, 2, Binary64.mk_ndarray 2 2 [[9; 6]; [6; 16]]).
Proof. vm_compute. reflexivity. Qed.

(** Two uncorrelated points: [wx] is 1.4000000000000001, [wy] is 2.2 and
    [covw] is [[0.8, 0], [0, 0.8999999999999999]]. *)
Example binary64_uncorrelated :
  Binary64.weighted_mean_twod [1; 3] [2; 4] [1; 2] [1; 3] [0; 0]
  = Ok (0x1.6666666666667p+0, 0x1.199999999999ap+1,
        Binary64.mk_ndarray 2 2
          [[0x1.999999999999ap-1; 0]; [0; 0x1.cccccccccccccp-1]]).
Proof. vm_compute. reflexivity. Qed.

(** An uncertainty whose square underflows is a zero uncertainty to
    [inv]. *)
Example binary64_underflow :
  Binary64.weighted_mean_twod [0] [0] [0x1p-600] [1] [0] = Raise LinAlgError.
Proof. vm_compute. reflexivity. Qed.

(** A correlation of 1 makes the covariance singular over the reals.  In
    binary64 [inv] raises when the rounded pivot is zero, as for the
    uncertainties 1 and 1; for the uncertainties 0.1 and 0.3 it is
    -6.9e-18 and the call returns: from the point [(1, 2)], the "mean"
    [(0.75, 1.5)]. *)
Example binary64_full_correlation :
  Binary64.weighted_mean_twod [1] [2] [1] [1] [1] = Raise LinAlgError
  /\ exists covw : Binary64.ndarray,
       Binary64.weighted_mean_twod [1] [2]
         [0x1.999999999999ap-4] [0x1.3333333333333p-2] [1]
       = Ok (0.75, 1.5, covw).
Proof.
  split; [vm_compute; reflexivity|].
  eexists. vm_compute. reflexivity.
Qed.

(** C4 as stated fails in binary64.  The points [(1, 2)] with
    uncertainties 1, 1 and correlation 1/2 and [(3, 4)] with uncertainties
    2, 3 and correlation -1/3 have positive definite covariances, and the
    call returns [covw[0][1] = 0.3036649214659686] next to
    [covw[1][0] = 0.30366492146596863]: the two entries come out of
    different substitutions in [inv] and are rounded apart. *)
Lemma weighted_mean_twod_covw_not_symmetric :
  exists (wx wy : float) (covw : Binary64.ndarray),
    Binary64.weighted_mean_twod [1; 3] [2; 4] [1; 2] [1; 3] [0.5; - (1 / 3)]
    = Ok (wx, wy, covw)
    /\ Binary64.entry covw 0 1 = 0x1.36f3efea8e12cp-2
    /\ Binary64.entry covw 1 0 = 0x1.36f3efea8e12dp-2
    /\ (Binary64.entry covw 0 1 <? Binary64.entry covw 1 0) = true.
Proof.
  exists 0x1.9e28359cd116cp+0, 0x1.41ace688b6486p+1,
    (Binary64.mk_ndarray 2 2
       [[0x1.7749b79f7f547p-1; 0x1.36f3efea8e12cp-2];
        [0x1.36f3efea8e12dp-2; 0x1.9f7f5470961d8p-1]]).
  repeat split; vm_compute; reflexivity.
Qed.

(** C10 as stated fails in binary64.  [1 / 49 * 49] is
    0.9999999999999999, not 1, and the result depends on [sx]: for
    [x = [1, 2, 3, 4]] the call returns the mean 2.5 with every
    uncertainty 1 and 2.5000000000000004 with every uncertainty 49. *)
Lemma weighted_mean_oned_depends_on_sx :
  1 / 49 * 49 = 0x1.fffffffffffffp-1
  /\ (1 / 49 * 49 <? 1) = true
  /\ Binary64.weighted_mean_oned [1; 2; 3; 4] [1; 1; 1; 1] = Ok (2.5, 0.5)
  /\ Binary64.weighted_mean_oned [1; 2; 3; 4] [49; 49; 49; 49]
     = Ok (0x1.4000000000001p+1, 0.5)
  /\ (2.5 <? 0x1.4000000000001p+1) = true.
Proof.
  repeat split; vm_compute; reflexivity.
Qed.

(** An uncertainty of length one is broadcast: with [sx = [49]] the sum
    of [[1, 2, 3]] comes back as 6.000000000000001. *)
Example binary64_scalar_uncertainty :
  Binary64.weighted_mean_oned [1; 2; 3] [49] = Ok (0x1.8000000000001p+2, 1).
Proof. vm_compute. reflexivity. Qed.

End Binary64Evaluation.

(** * The concrete scenarios of the specification *)

Example weighted_mean_twod_two_unit_points :
  weighted_mean_twod [0; 0] [0; 0] [1; 1] [1; 1] [0; 0]
  = Ok (0, 0, mk_ndarray 2 2 [[1 / 2; 0]; [0; 1 / 2]]).
Proof.
  destruct (weighted_mean_twod_valid [0; 0] [0; 0] [1; 1] [1; 1] [0; 0]) as (_ & _ & ->).
  { unfold valid_input.
    repeat split; try reflexivity; try (simpl; lia);
      repeat constructor; try lra; rewrite Rabs_R0; lra. }
  unfold normal_entry, rhs_entry, prec_at, precision.
  cbn [length seq map nth np_sum fold_right entry rows].
  entrywise; field.
Qed.

Example rse_ten_to_hundred (erfinv : R -> R) :
  erfinv 0.8 <> 0 ->
  rse erfinv [10; 20; 30; 40; 50; 60; 70; 80; 90; 100]
  = Ok (Num (1 / (sqrt 2 * 2 * erfinv 0.8) * (91 - 19))).
Proof.
  intros Herf.
  set (l := [10; 20; 30; 40; 50; 60; 70; 80; 90; 100]).
  assert (Hsorted : Sorted Rle l) by (unfold l; repeat constructor; lra).
  assert (H10 : linear_percentile l 10 19).
  { exists l. split; [apply Permutation_refl|]. split; [exact Hsorted|].
    exists 0%nat. cbv zeta. unfold l. simpl. repeat split; try lia; lra. }
  assert (H90 : linear_percentile l 90 91).
  { exists l. split; [apply Permutation_refl|]. split; [exact Hsorted|].
    exists 8%nat. cbv zeta. unfold l. simpl. repeat split; try lia; lra. }
  destruct (scoreatpercentile_linear l 10) as (p10 & Hp10 & E10);
    [discriminate | lra |].
  destruct (scoreatpercentile_linear l 90) as (p90 & Hp90 & E90);
    [discriminate | lra |].
  rewrite (linear_percentile_unique l 10 p10 19 Hp10 H10) in E10.
  rewrite (linear_percentile_unique l 90 p90 91 Hp90 H90) in E90.
  unfold rse. rewrite E90, E10. cbn [bind].
  unfold _rse_constant. rewrite fdiv_num; [reflexivity|].
  pose proof sqrt2_bounds.
  repeat apply Rmult_integral_contrapositive_currified; lra.
Qed.

(** * Further properties of [rse] *)

(** For an increasing affine map the percentile of the images is the image
    of the percentile. *)
Lemma linear_percentile_affine (x : list R) (q p a c : R) :
  0 < a ->
  linear_percentile x q p ->
  linear_percentile (map (fun v => a * v + c) x) q (a * p + c).
Proof.
  intros Ha (s & Hp & Hs & k & Hk & Hh & ->).
  set (f := fun v => a * v + c).
  exists (map f s). split; [now apply Permutation_map|]. split.
  - clear Hp Hk Hh. induction Hs as [|u l Hl IH Hu]; cbn [map]; constructor.
    + exact IH.
    + destruct Hu as [|v l Huv]; cbn [map]; constructor. unfold f. nra.
  - exists k. rewrite length_map. cbv zeta. split; [exact Hk|]. split; [exact Hh|].
    assert (Hnth : forall i, (i < length s)%nat -> nth i (map f s) 0 = f (nth i s 0)).
    { intros i Hi. rewrite (nth_indep _ 0 (f 0)) by now rewrite length_map.
      apply map_nth. }
    rewrite !Hnth by lia. unfold f. ring.
Qed.

Lemma scoreatpercentile_affine (x : list R) (per p a c : R) :
  0 < a -> 0 <= per <= 100 ->
  scoreatpercentile x per = Ok (Num p) ->
  scoreatpercentile (map (fun v => a * v + c) x) per = Ok (Num (a * p + c)).
Proof.
  intros Ha Hper E.
  destruct x as [|u x]; [discriminate|].
  destruct (scoreatpercentile_linear (u :: x) per ltac:(discriminate) Hper)
    as (p0 & Hp0 & E0).
  rewrite E in E0. injection E0 as <-.
  destruct (scoreatpercentile_linear (map (fun v => a * v + c) (u :: x)) per
              ltac:(discriminate) Hper) as (p1 & Hp1 & E1).
  rewrite E1. do 2 f_equal.
  eapply linear_percentile_unique; [exact Hp1|].
  now apply linear_percentile_affine.
Qed.

Lemma scoreatpercentile_finite (x : list R) (per : R) :
  x <> [] -> 0 <= per <= 100 -> exists p, scoreatpercentile x per = Ok (Num p).
Proof.
  intros Hx Hper.
  destruct (scoreatpercentile_linear x per Hx Hper) as (p & _ & E). eauto.
Qed.

Section RobustScatterFurther.

Variable erfinv : R -> R.

(** X3: adding a constant to every value does not change the estimate. *)
Theorem rse_translation_invariant (x : list R) (c : R) :
  rse erfinv (map (fun v => v + c) x) = rse erfinv x.
Proof.
  destruct x as [|u x]; [reflexivity|].
  destruct (scoreatpercentile_finite (u :: x) 10 ltac:(discriminate) ltac:(lra))
    as (p10 & E10).
  destruct (scoreatpercentile_finite (u :: x) 90 ltac:(discriminate) ltac:(lra))
    as (p90 & E90).
  pose proof (scoreatpercentile_affine (u :: x) 10 p10 1 c ltac:(lra) ltac:(lra) E10)
    as E10'.
  pose proof (scoreatpercentile_affine (u :: x) 90 p90 1 c ltac:(lra) ltac:(lra) E90)
    as E90'.
  assert (Hmap : map (fun v => 1 * v + c) (u :: x) = map (fun v => v + c) (u :: x)).
  { apply map_ext. intros v. ring. }
  rewrite Hmap in E10', E90'.
  unfold rse. rewrite E90', E10', E90, E10. cbn [bind fsub fneg fadd].
  do 3 f_equal. ring.
Qed.

(** X4: multiplying every value by a positive factor multiplies the estimate
    by that factor. *)
Theorem rse_scale_equivariant (x : list R) (a : R) :
  0 < a -> x <> [] -> erfinv 0.8 <> 0 ->
  exists r : R,
    rse erfinv x = Ok (Num r)
    /\ rse erfinv (map (fun v => a * v) x) = Ok (Num (a * r)).
Proof.
  intros Ha Hx Herf.
  destruct (scoreatpercentile_finite x 10 Hx ltac:(lra)) as (p10 & E10).
  destruct (scoreatpercentile_finite x 90 Hx ltac:(lra)) as (p90 & E90).
  pose proof (scoreatpercentile_affine x 10 p10 a 0 Ha ltac:(lra) E10) as E10'.
  pose proof (scoreatpercentile_affine x 90 p90 a 0 Ha ltac:(lra) E90) as E90'.
  assert (Hmap : map (fun v => a * v + 0) x = map (fun v => a * v) x).
  { apply map_ext. intros v. ring. }
  rewrite Hmap in E10', E90'.
  pose proof sqrt2_bounds as Hs.
  unfold rse. rewrite E90', E10', E90, E10. cbn [bind fsub fneg fadd].
  unfold _rse_constant. rewrite fdiv_num
    by (repeat apply Rmult_integral_contrapositive_currified; lra).
  cbn [fmul]. eexists. split; [reflexivity|]. do 2 f_equal. ring.
Qed.

End RobustScatterFurther.

Lemma rse_scale_equivariant_witness :
  exists r : R,
    rse (fun _ => 0.9061938) [3; 1; 2] = Ok (Num r)
    /\ rse (fun _ => 0.9061938) (map (fun v => 2 * v) [3; 1; 2]) = Ok (Num (2 * r)).
Proof.
  apply (rse_scale_equivariant (fun _ => 0.9061938) [3; 1; 2] 2);
    [lra | discriminate | lra].
Defined.

(** ** Robustness against one outlier *)

Lemma sorted_snoc (s : list R) (M : R) :
  Sorted Rle s -> Forall (fun v => v <= M) s -> Sorted Rle (s ++ [M]).
Proof.
  induction 1 as [|a l Hl IH Ha]; intros HM; cbn [app].
  - repeat constructor.
  - inversion HM as [|? ? HaM HlM]; subst.
    constructor; [now apply IH|].
    destruct Ha as [|b l Hab]; cbn [app]; now constructor.
Qed.

Lemma fractional_rank_index (h : R) :
  0 <= h -> exists k : nat, INR k <= h < INR k + 1.
Proof.
  intros Hh. destruct (py_int_nonneg h Hh) as [Hi0 Hb].
  exists (Z.to_nat (py_int h)).
  now rewrite INR_IZR_INZ, Z2Nat.id.
Qed.

(** With at least eleven other values, a percentile up to the 90th does
    not read the largest value. *)
Lemma scoreatpercentile_ignores_largest (x : list R) (M M' q : R) :
  0 <= q <= 90 -> (11 <= length x)%nat ->
  Forall (fun v => v <= M) x -> Forall (fun v => v <= M') x ->
  scoreatpercentile (M :: x) q = scoreatpercentile (M' :: x) q.
Proof.
  intros Hq HL HM HM'.
  set (s := np_sort x).
  assert (Hlen : length s = length x) by apply np_sort_length.
  assert (HL' : 11 <= INR (length x)).
  { replace 11 with (INR 11) by (simpl; lra). now apply le_INR. }
  set (h := q / 100 * INR (length x)).
  assert (Hh : 0 <= h) by (unfold h; apply Rmult_le_pos; lra).
  destruct (fractional_rank_index h Hh) as (k & Hk).
  assert (Hk1 : (k + 1 < length x)%nat).
  { apply INR_lt. rewrite plus_INR. simpl INR. unfold h in Hk. nra. }
  assert (Hper : forall T, Forall (fun v => v <= T) x ->
            linear_percentile (T :: x) q
              (nth k s 0 + (h - INR k) * (nth (S k) s 0 - nth k s 0))).
  { intros T HT. exists (s ++ [T]). split; [|split].
    - eapply Permutation_trans; [apply perm_skip, np_sort_perm|].
      apply Permutation_cons_append.
    - apply sorted_snoc; [apply np_sort_sorted|].
      eapply Permutation_Forall; [apply np_sort_perm | exact HT].
    - exists k. rewrite length_app, Hlen. cbn [length]. cbv zeta.
      replace (INR (length x + 1) - 1) with (INR (length x))
        by (rewrite plus_INR; simpl; lra).
      fold h. split; [lia|]. split; [exact Hk|].
      replace (Nat.min (S k) (length x + 1 - 1)) with (S k) by lia.
      rewrite !app_nth1 by lia. reflexivity. }
  destruct (scoreatpercentile_linear (M :: x) q ltac:(discriminate) ltac:(lra))
    as (p & Hp & ->).
  destruct (scoreatpercentile_linear (M' :: x) q ltac:(discriminate) ltac:(lra))
    as (p' & Hp' & ->).
  rewrite (linear_percentile_unique _ _ _ _ Hp (Hper M HM)).
  rewrite (linear_percentile_unique _ _ _ _ Hp' (Hper M' HM')).
  reflexivity.
Qed.

(** With at least ten other values, a percentile from the 10th on does
    not read the smallest value. *)
Lemma scoreatpercentile_ignores_smallest (x : list R) (m m' q : R) :
  10 <= q <= 100 -> (10 <= length x)%nat ->
  Forall (fun v => m <= v) x -> Forall (fun v => m' <= v) x ->
  scoreatpercentile (m :: x) q = scoreatpercentile (m' :: x) q.
Proof.
  intros Hq HL Hm Hm'.
  set (s := np_sort x).
  assert (Hlen : length s = length x) by apply np_sort_length.
  assert (HL' : 10 <= INR (length x)).
  { replace 10 with (INR 10) by (simpl; lra). now apply le_INR. }
  set (h := q / 100 * INR (length x)).
  assert (Hh1 : 1 <= h) by (unfold h; nra).
  assert (HhL : h <= INR (length x)) by (unfold h; nra).
  destruct (fractional_rank_index h ltac:(lra)) as (k & Hk).
  assert (Hk1 : (1 <= k)%nat).
  { assert (H : INR 0 < INR k + 1) by (simpl; lra).
    rewrite <- S_INR in H. apply INR_lt in H.
    destruct k as [|k]; [simpl in Hk; lra | lia]. }
  assert (HkL : (k <= length x)%nat) by (apply INR_le; lra).
  assert (Hper : forall T, Forall (fun v => T <= v) x ->
            linear_percentile (T :: x) q
              (nth (k - 1) s 0
               + (h - INR k) * (nth (Nat.min k (length x - 1)) s 0 - nth (k - 1) s 0))).
  { intros T HT. exists (T :: s). split; [|split].
    - apply perm_skip, np_sort_perm.
    - constructor; [apply np_sort_sorted|].
      assert (HTs : Forall (fun v => T <= v) s)
        by (eapply Permutation_Forall; [apply np_sort_perm | exact HT]).
      destruct HTs; now constructor.
    - exists k. cbn [length]. rewrite Hlen. cbv zeta.
      replace (INR (S (length x)) - 1) with (INR (length x))
        by (rewrite S_INR; lra).
      fold h. split; [lia|]. split; [exact Hk|].
      replace (Nat.min (S k) (S (length x) - 1)) with (S (Nat.min k (length x - 1)))
        by lia.
      destruct k as [|k]; [lia|]. cbn [nth].
      now replace (S k - 1)%nat with k by lia. }
  destruct (scoreatpercentile_linear (m :: x) q ltac:(discriminate) ltac:(lra))
    as (p & Hp & ->).
  destruct (scoreatpercentile_linear (m' :: x) q ltac:(discriminate) ltac:(lra))
    as (p' & Hp' & ->).
  rewrite (linear_percentile_unique _ _ _ _ Hp (Hper m Hm)).
  rewrite (linear_percentile_unique _ _ _ _ Hp' (Hper m' Hm')).
  reflexivity.
Qed.

(** X5: the estimate is robust against a high outlier: with at least eleven
    other values the largest value can be moved without changing the
    result, as long as it stays the largest. *)
Theorem rse_ignores_largest (erfinv : R -> R) (x : list R) (M M' : R) :
  (11 <= length x)%nat ->
  Forall (fun v => v <= M) x -> Forall (fun v => v <= M') x ->
  rse erfinv (M :: x) = rse erfinv (M' :: x).
Proof.
  intros HL HM HM'. unfold rse.
  rewrite (scoreatpercentile_ignores_largest x M M' 90) by (assumption || lra).
  rewrite (scoreatpercentile_ignores_largest x M M' 10) by (assumption || lra).
  reflexivity.
Qed.

(** X6: the same for a low outlier: the smallest value can be moved as long
    as it stays the smallest. *)
Theorem rse_ignores_smallest (erfinv : R -> R) (x : list R) (m m' : R) :
  (11 <= length x)%nat ->
  Forall (fun v => m <= v) x -> Forall (fun v => m' <= v) x ->
  rse erfinv (m :: x) = rse erfinv (m' :: x).
Proof.
  intros HL Hm Hm'. unfold rse.
  rewrite (scoreatpercentile_ignores_smallest x m m' 90) by (assumption || lra || lia).
  rewrite (scoreatpercentile_ignores_smallest x m m' 10) by (assumption || lra || lia).
  reflexivity.
Qed.

Lemma rse_ignores_largest_witness :
  rse (fun _ => 0.9061938) (100 :: [1; 2; 3; 4; 5; 6; 7; 8; 9; 10; 11])
  = rse (fun _ => 0.9061938) (1000000 :: [1; 2; 3; 4; 5; 6; 7; 8; 9; 10; 11]).
Proof.
  apply rse_ignores_largest; [simpl; lia | |]; repeat constructor; lra.
Defined.

Lemma rse_ignores_smallest_witness :
  rse (fun _ => 0.9061938) (0 :: [1; 2; 3; 4; 5; 6; 7; 8; 9; 10; 11])
  = rse (fun _ => 0.9061938) (-1000000 :: [1; 2; 3; 4; 5; 6; 7; 8; 9; 10; 11]).
Proof.
  apply rse_ignores_smallest; [simpl; lia | |]; repeat constructor; lra.
Defined.

(** * Further properties of [weighted_mean_oned] *)

Lemma fadd_nan_r (a : npfloat) : fadd a NaN = NaN.
Proof. destruct a; reflexivity. Qed.

Lemma fsum_nan (l : list npfloat) : In NaN l -> fsum l = NaN.
Proof.
  induction l as [|a l IH]; intros Hin; [contradiction|].
  cbn [fsum fold_right]. fold (fsum l).
  destruct Hin as [->|Hin]; [reflexivity|].
  rewrite IH by exact Hin. apply fadd_nan_r.
Qed.

Lemma Rzero_dec_zero : Rzero_dec 0 = true.
Proof.
  unfold Rzero_dec. destruct (Req_dec_T 0 0); [reflexivity | contradiction].
Qed.

Lemma fmul_inf_zero (positive : bool) : fmul_inf positive 0 = NaN.
Proof. unfold fmul_inf. now rewrite Rzero_dec_zero. Qed.

Lemma fmul_quotient_zero (a : R) : fmul (fdiv (Num a) (Num 0)) (Num 0) = NaN.
Proof.
  cbn [fdiv]. rewrite Rzero_dec_zero.
  destruct (Rzero_dec a); [reflexivity|].
  destruct (Rpos_dec a); cbn [inf_of_sign fmul]; apply fmul_inf_zero.
Qed.

Lemma reciprocal_times_zero (sx : list R) :
  In 0 sx ->
  In NaN (zip_with fmul (map (fun s => fdiv (Num 1) (Num s)) sx) (map Num sx)).
Proof.
  induction sx as [|s sx IH]; intros Hin; [contradiction|].
  cbn [map zip_with]. destruct Hin as [->|Hin].
  - left. apply fmul_quotient_zero.
  - right. now apply IH.
Qed.

Lemma quotient_times_zero (x sx : list R) :
  length sx = length x -> In 0 sx ->
  In NaN (zip_with fmul (zip_with fdiv (map Num x) (map Num sx)) (map Num sx)).
Proof.
  revert x. induction sx as [|s sx IH]; intros [|a x] Hlen Hin;
    simpl in Hlen; try lia; try contradiction.
  cbn [map zip_with]. destruct Hin as [->|Hin].
  - left. apply fmul_quotient_zero.
  - right. apply IH; [lia | exact Hin].
Qed.

(** X7: a zero uncertainty raises nothing: both results are [nan]. *)
Theorem weighted_mean_oned_zero_uncertainty (x sx : list R) :
  length sx = length x -> In 0 sx ->
  weighted_mean_oned x sx = Ok (NaN, NaN).
Proof.
  intros Hlen Hin. unfold weighted_mean_oned.
  rewrite broadcast_same_length by now rewrite !length_map.
  cbn [bind].
  rewrite (broadcast_same_length fdiv) by (rewrite !length_map; congruence).
  cbn [bind].
  rewrite (broadcast_same_length fmul)
    by (rewrite zip_with_length; rewrite !length_map; congruence).
  cbn [bind].
  rewrite (fsum_nan _ (reciprocal_times_zero sx Hin)).
  rewrite (fsum_nan _ (quotient_times_zero x sx Hlen Hin)).
  reflexivity.
Qed.

Lemma weighted_mean_oned_zero_uncertainty_witness :
  weighted_mean_oned [1; 5] [2; 0] = Ok (NaN, NaN).
Proof.
  apply (weighted_mean_oned_zero_uncertainty [1; 5] [2; 0]).
  - reflexivity.
  - simpl. right. left. reflexivity.
Defined.

(** X8: arrays of different lengths, neither of length one, cannot be
    broadcast: [ValueError]. *)
Theorem weighted_mean_oned_length_mismatch (x sx : list R) :
  length x <> length sx -> length x <> 1%nat -> length sx <> 1%nat ->
  weighted_mean_oned x sx = Raise ValueError.
Proof.
  intros Hne Hx Hsx. unfold weighted_mean_oned.
  rewrite broadcast_same_length by now rewrite !length_map.
  cbn [bind]. unfold broadcast at 1. rewrite !length_map.
  destruct (Nat.eqb_spec (length x) (length sx)); [contradiction|].
  destruct x as [|a [|a' x]]; destruct sx as [|s [|s' sx]];
    simpl in *; try lia; reflexivity.
Qed.

Lemma weighted_mean_oned_length_mismatch_witness :
  weighted_mean_oned [1; 2; 3] [1; 1] = Raise ValueError.
Proof.
  apply (weighted_mean_oned_length_mismatch [1; 2; 3] [1; 1]); simpl; lia.
Defined.

(** X10: without any measurement the weights sum to 0: the mean is [0/0],
    [nan], and the uncertainty [sqrt(1/0)], infinite; nothing is raised. *)
Theorem weighted_mean_oned_empty : weighted_mean_oned [] [] = Ok (NaN, PosInf).
Proof.
  unfold weighted_mean_oned, broadcast.
  cbn [map length Nat.eqb zip_with bind fsum fold_right fdiv].
  rewrite Rzero_dec_zero, Rzero_dec_false by lra.
  unfold Rpos_dec. destruct (Rlt_dec 0 1) as [_|H]; [reflexivity | exfalso; lra].
Qed.

(** * Further properties of [weighted_mean_twod] *)

(** ** What the result depends on *)

Lemma check_points_ext (x y sx sy cxy x' y' sx' sy' cxy' : list R) (ks : list nat) :
  (forall k, In k ks ->
     point_outcome x' y' sx' sy' cxy' k = point_outcome x y sx sy cxy k) ->
  check_points x' y' sx' sy' cxy' ks = check_points x y sx sy cxy ks.
Proof.
  induction ks as [|k ks IH]; intros H; [reflexivity|].
  rewrite !check_points_cons, (H k) by now left.
  destruct (point_outcome x y sx sy cxy k); cbn [bind]; [|reflexivity].
  apply IH. intros k' Hk'. apply H. now right.
Qed.

Lemma weighted_mean_twod_ext (x y sx sy cxy x' y' sx' sy' cxy' : list R) :
  length x' = length x ->
  (forall k, (k < length x)%nat ->
     point_outcome x' y' sx' sy' cxy' k = point_outcome x y sx sy cxy k) ->
  (forall i p q, (i < length x)%nat ->
     prec_at sx' sy' cxy' i p q = prec_at sx sy cxy i p q) ->
  (forall i, (i < length x)%nat -> nth i x' 0 = nth i x 0 /\ nth i y' 0 = nth i y 0) ->
  weighted_mean_twod x' y' sx' sy' cxy' = weighted_mean_twod x y sx sy cxy.
Proof.
  intros Hlen Hpt Hprec Hxy.
  rewrite !weighted_mean_twod_normal_form, Hlen.
  rewrite (check_points_ext x y sx sy cxy x' y' sx' sy' cxy')
    by (intros k Hk; apply in_seq in Hk; apply Hpt; lia).
  destruct (check_points x y sx sy cxy _); cbn [bind]; [|reflexivity].
  f_equal.
  - unfold normal_sum. apply tab_ext. intros p q _ _. unfold normal_entry.
    apply np_sum_ext. intros i Hi. now apply Hprec.
  - unfold rhs_sum. apply tab1_ext. intros p _. unfold rhs_entry.
    apply np_sum_ext. intros i Hi.
    destruct (Hxy i Hi) as [-> ->]. now rewrite !Hprec.
Qed.

Lemma nth_from_nth_error (a a' : list R) (k : nat) :
  nth_error a' k = nth_error a k -> nth k a' 0 = nth k a 0.
Proof.
  intros H. rewrite <- !nth_default_eq. unfold nth_default. now rewrite H.
Qed.

(** X11: only the first [len(x)] entries of the other arrays are read: longer
    arrays are cut silently. *)
Theorem weighted_mean_twod_ignores_tail (x y sx sy cxy : list R) :
  weighted_mean_twod x (firstn (length x) y) (firstn (length x) sx)
                     (firstn (length x) sy) (firstn (length x) cxy)
  = weighted_mean_twod x y sx sy cxy.
Proof.
  assert (Hne : forall (a : list R) k, (k < length x)%nat ->
            nth_error (firstn (length x) a) k = nth_error a k).
  { intros a k Hk. rewrite nth_error_firstn.
    destruct (Nat.ltb_spec k (length x)); [reflexivity | lia]. }
  apply weighted_mean_twod_ext.
  - reflexivity.
  - intros k Hk. unfold point_outcome, getitem. now rewrite !Hne by exact Hk.
  - intros i p q Hi. unfold prec_at.
    now rewrite !(nth_from_nth_error _ _ i (Hne _ i Hi)).
  - intros i Hi. split; [reflexivity|].
    apply nth_from_nth_error. now apply Hne.
Qed.

Lemma nth_map_opp (a : list R) (k : nat) : nth k (map Ropp a) 0 = - nth k a 0.
Proof.
  revert k. induction a as [|u a IH]; intros [|k]; cbn [map nth]; try ring.
  apply IH.
Qed.

Lemma getitem_map_opp (a : list R) (k : nat) :
  getitem (map Ropp a) k = (v <- getitem a k ;; Ok (- v)).
Proof.
  unfold getitem. rewrite nth_error_map. destruct (nth_error a k); reflexivity.
Qed.

Lemma point_cov_opp (s t c : R) : point_cov (- s) (- t) c = point_cov s t c.
Proof. unfold point_cov. entrywise; ring. Qed.

Lemma precision_opp (s t c : R) : precision (- s) (- t) c = precision s t c.
Proof.
  unfold precision. cbv zeta.
  replace ((- s) ^ 2) with (s ^ 2) by ring.
  replace ((- t) ^ 2) with (t ^ 2) by ring.
  replace (- s * - t * c) with (s * t * c) by ring.
  reflexivity.
Qed.

(** X12: the signs of the uncertainties are not looked at: negating [sx] and
    [sy] together gives the same covariance matrices and the same
    outcome. *)
Theorem weighted_mean_twod_sign_blind (x y sx sy cxy : list R) :
  weighted_mean_twod x y (map Ropp sx) (map Ropp sy) cxy
  = weighted_mean_twod x y sx sy cxy.
Proof.
  apply weighted_mean_twod_ext.
  - reflexivity.
  - intros k _. unfold point_outcome. rewrite !getitem_map_opp.
    destruct (getitem x k); cbn [bind]; [|reflexivity].
    destruct (getitem y k); cbn [bind]; [|reflexivity].
    destruct (getitem sx k); cbn [bind]; [|reflexivity].
    destruct (getitem sy k); cbn [bind]; [|reflexivity].
    destruct (getitem cxy k); cbn [bind]; [|reflexivity].
    now rewrite point_cov_opp.
  - intros i p q _. unfold prec_at. now rewrite !nth_map_opp, precision_opp.
  - intros i _. now split.
Qed.

(** ** The result in closed form *)

Lemma weighted_mean_twod_formula (x y sx sy cxy : list R) :
  check_points x y sx sy cxy (seq 0 (length x)) = Ok tt ->
  let a := normal_entry sx sy cxy (length x) 0 0 in
  let b := normal_entry sx sy cxy (length x) 0 1 in
  let d := normal_entry sx sy cxy (length x) 1 1 in
  let r0 := rhs_entry x y sx sy cxy (length x) 0 in
  let r1 := rhs_entry x y sx sy cxy (length x) 1 in
  let det := a * d - b * b in
  weighted_mean_twod x y sx sy cxy
  = if Req_dec_T det 0 then Raise LinAlgError
    else Ok (d / det * r0 + (- b / det * r1 + 0),
             - b / det * r0 + (a / det * r1 + 0),
             mk_ndarray 2 2 [[d / det; - b / det]; [- b / det; a / det]]).
Proof.
  intros Hchk a b d r0 r1 det.
  rewrite weighted_mean_twod_normal_form, Hchk. cbn [bind].
  unfold normal_sum, rhs_sum. rewrite solve_normal_tab. cbv zeta.
  rewrite normal_entry_symmetric. reflexivity.
Qed.

Lemma weighted_mean_twod_returns (x y sx sy cxy : list R) (wx wy : R) (covw : ndarray) :
  weighted_mean_twod x y sx sy cxy = Ok (wx, wy, covw) ->
  let a := normal_entry sx sy cxy (length x) 0 0 in
  let b := normal_entry sx sy cxy (length x) 0 1 in
  let d := normal_entry sx sy cxy (length x) 1 1 in
  let r0 := rhs_entry x y sx sy cxy (length x) 0 in
  let r1 := rhs_entry x y sx sy cxy (length x) 1 in
  let det := a * d - b * b in
  check_points x y sx sy cxy (seq 0 (length x)) = Ok tt
  /\ det <> 0
  /\ wx = d / det * r0 + (- b / det * r1 + 0)
  /\ wy = - b / det * r0 + (a / det * r1 + 0)
  /\ covw = mk_ndarray 2 2 [[d / det; - b / det]; [- b / det; a / det]].
Proof.
  intros Hres a b d r0 r1 det.
  assert (Hchk : check_points x y sx sy cxy (seq 0 (length x)) = Ok tt).
  { rewrite weighted_mean_twod_normal_form in Hres.
    destruct (check_points x y sx sy cxy _) as [[]|e]; [reflexivity | discriminate]. }
  rewrite (weighted_mean_twod_formula x y sx sy cxy Hchk) in Hres. cbv zeta in Hres.
  fold a b d r0 r1 in Hres. fold det in Hres.
  destruct (Req_dec_T det 0) as [|Hdet]; [discriminate|].
  injection Hres as <- <- <-. repeat split; try reflexivity; assumption.
Qed.

Lemma check_points_all (x y sx sy cxy : list R) (ks : list nat) (k : nat) :
  check_points x y sx sy cxy ks = Ok tt -> In k ks ->
  point_outcome x y sx sy cxy k = Ok tt.
Proof.
  induction ks as [|k' ks IH]; intros Hchk Hin; [contradiction|].
  rewrite check_points_cons in Hchk.
  destruct (point_outcome x y sx sy cxy k') as [[]|e] eqn:E; [|discriminate].
  cbn [bind] in Hchk. destruct Hin as [<-|Hin]; [exact E | now apply IH].
Qed.

Lemma point_outcome_inversion (x y sx sy cxy : list R) (k : nat) :
  point_outcome x y sx sy cxy k = Ok tt ->
  (k < length x)%nat /\ (k < length y)%nat /\ (k < length sx)%nat
  /\ (k < length sy)%nat /\ (k < length cxy)%nat
  /\ pdet (nth k sx 0) (nth k sy 0) (nth k cxy 0) <> 0.
Proof.
  unfold point_outcome. intros H.
  destruct (getitem x k) as [xk|] eqn:Ex; [|discriminate].
  destruct (getitem y k) as [yk|] eqn:Ey; [|discriminate].
  destruct (getitem sx k) as [sxk|] eqn:Esx; [|discriminate].
  destruct (getitem sy k) as [syk|] eqn:Esy; [|discriminate].
  destruct (getitem cxy k) as [cxyk|] eqn:Ecxy; [|discriminate].
  cbn [bind] in H. rewrite inv_point_cov in H.
  apply getitem_nth in Ex, Ey, Esx, Esy, Ecxy.
  destruct Ex as [_ Hx], Ey as [_ Hy], Esx as [<- Hsx], Esy as [<- Hsy],
    Ecxy as [<- Hcxy].
  repeat split; try assumption.
  unfold pdet. destruct (Req_dec_T _ 0); [discriminate | assumption].
Qed.

(** X14: the covariance of the mean is decided by the uncertainties and the
    number of points alone: other values [x'], [y'] give the same [covw]. *)
Theorem weighted_mean_twod_covw_ignores_values
    (x y sx sy cxy x' y' : list R) (wx wy : R) (covw : ndarray) :
  weighted_mean_twod x y sx sy cxy = Ok (wx, wy, covw) ->
  length x' = length x -> length y' = length y ->
  exists wx' wy' : R, weighted_mean_twod x' y' sx sy cxy = Ok (wx', wy', covw).
Proof.
  intros Hres Hx Hy.
  destruct (weighted_mean_twod_returns x y sx sy cxy wx wy covw Hres)
    as (Hchk & Hdet & _ & _ & ->).
  assert (Hchk' : check_points x' y' sx sy cxy (seq 0 (length x')) = Ok tt).
  { apply check_points_ok. intros k Hk. rewrite Hx in Hk.
    destruct (point_outcome_inversion x y sx sy cxy k
                (check_points_all _ _ _ _ _ _ k Hchk Hk))
      as (Hkx & Hky & Hksx & Hksy & Hkc & Hpd).
    apply point_outcome_ok; try assumption; lia. }
  rewrite (weighted_mean_twod_formula x' y' sx sy cxy Hchk'). cbv zeta.
  rewrite Hx. destruct (Req_dec_T _ 0) as [E|_]; [contradiction|].
  eauto.
Qed.

Lemma weighted_mean_twod_covw_ignores_values_witness :
  exists wx' wy' : R,
    weighted_mean_twod [7] [8] [1] [2] [1 / 2] = Ok (wx', wy', point_cov 1 2 (1 / 2)).
Proof.
  apply (weighted_mean_twod_covw_ignores_values [0] [0] [1] [2] [1 / 2] [7] [8] 0 0).
  - apply weighted_mean_twod_single; lra.
  - reflexivity.
  - reflexivity.
Defined.

(** ** Shifting the measurements *)

Lemma np_sum_plus (n : nat) (f g : nat -> R) :
  np_sum (map (fun i => f i + g i) (seq 0 n))
  = np_sum (map f (seq 0 n)) + np_sum (map g (seq 0 n)).
Proof.
  induction n as [|n IH]; [cbn; lra|].
  rewrite !np_sum_snoc, IH. lra.
Qed.

Lemma np_sum_scal (n : nat) (c : R) (f : nat -> R) :
  np_sum (map (fun i => c * f i) (seq 0 n)) = c * np_sum (map f (seq 0 n)).
Proof.
  induction n as [|n IH]; [cbn; lra|].
  rewrite !np_sum_snoc, IH. lra.
Qed.

Lemma nth_map_in_range (f : R -> R) (a : list R) (k : nat) :
  (k < length a)%nat -> nth k (map f a) 0 = f (nth k a 0).
Proof.
  intros Hk. rewrite (nth_indep _ 0 (f 0)) by now rewrite length_map.
  apply map_nth.
Qed.

Lemma getitem_map (f : R -> R) (a : list R) (k : nat) :
  getitem (map f a) k = (v <- getitem a k ;; Ok (f v)).
Proof.
  unfold getitem. rewrite nth_error_map. destruct (nth_error a k); reflexivity.
Qed.

Lemma rhs_entry_shift (x y sx sy cxy : list R) (n p : nat) (u v : R) :
  (n <= length x)%nat -> (n <= length y)%nat ->
  rhs_entry (map (fun t => t + u) x) (map (fun t => t + v) y) sx sy cxy n p
  = rhs_entry x y sx sy cxy n p
    + (u * normal_entry sx sy cxy n p 0 + v * normal_entry sx sy cxy n p 1).
Proof.
  intros Hx Hy. unfold rhs_entry, normal_entry.
  rewrite <- !np_sum_scal, <- !np_sum_plus.
  apply np_sum_ext. intros i Hi.
  rewrite !nth_map_in_range by lia. ring.
Qed.

(** X15: shifting every [x] by [u] and every [y] by [v] shifts the weighted
    mean by [(u, v)] and leaves its covariance as it is. *)
Theorem weighted_mean_twod_translation
    (x y sx sy cxy : list R) (u v wx wy : R) (covw : ndarray) :
  weighted_mean_twod x y sx sy cxy = Ok (wx, wy, covw) ->
  weighted_mean_twod (map (fun t => t + u) x) (map (fun t => t + v) y) sx sy cxy
  = Ok (wx + u, wy + v, covw).
Proof.
  intros Hres.
  destruct (weighted_mean_twod_returns x y sx sy cxy wx wy covw Hres)
    as (Hchk & Hdet & -> & -> & ->).
  assert (Hlen : forall k, (k < length x)%nat -> (k < length y)%nat).
  { intros k Hk.
    apply (point_outcome_inversion x y sx sy cxy k).
    apply (check_points_all _ _ _ _ _ _ k Hchk). apply in_seq. lia. }
  assert (Hy : (length x <= length y)%nat).
  { destruct (length x) as [|n] eqn:E; [lia|]. specialize (Hlen n ltac:(lia)). lia. }
  assert (Hchk' : check_points (map (fun t => t + u) x) (map (fun t => t + v) y)
                    sx sy cxy (seq 0 (length (map (fun t => t + u) x))) = Ok tt).
  { rewrite length_map. rewrite <- Hchk. apply check_points_ext.
    intros k Hk. unfold point_outcome. rewrite !getitem_map.
    destruct (getitem x k); cbn [bind]; [|reflexivity].
    destruct (getitem y k); cbn [bind]; reflexivity. }
  rewrite (weighted_mean_twod_formula _ _ sx sy cxy Hchk'). cbv zeta.
  rewrite length_map, !rhs_entry_shift by lia.
  rewrite !normal_entry_symmetric.
  set (a := normal_entry sx sy cxy (length x) 0 0) in *.
  set (b := normal_entry sx sy cxy (length x) 0 1) in *.
  set (d := normal_entry sx sy cxy (length x) 1 1) in *.
  destruct (Req_dec_T (a * d - b * b) 0) as [E|_]; [contradiction|].
  entrywise; try reflexivity; field; exact Hdet.
Qed.

Lemma weighted_mean_twod_translation_witness :
  weighted_mean_twod (map (fun t => t + 10) [1]) (map (fun t => t + 20) [2])
                     [1] [2] [1 / 2]
  = Ok (1 + 10, 2 + 20, point_cov 1 2 (1 / 2)).
Proof.
  apply (weighted_mean_twod_translation [1] [2] [1] [2] [1 / 2] 10 20).
  apply weighted_mean_twod_single; lra.
Defined.

(** ** Uncorrelated measurements: the covariance *)

(** X16: with all correlations zero the covariance of the mean is diagonal,
    with the variances [1 / sum(1/sx_i^2)] and [1 / sum(1/sy_i^2)]. *)
Theorem weighted_mean_twod_uncorrelated_covw (x y sx sy cxy : list R) :
  (1 <= length x)%nat ->
  length y = length x -> length sx = length x ->
  length sy = length x -> length cxy = length x ->
  Forall (fun c => c = 0) cxy ->
  Forall (fun s => 0 < s) sx -> Forall (fun s => 0 < s) sy ->
  exists wx wy : R,
    weighted_mean_twod x y sx sy cxy
    = Ok (wx, wy,
          mk_ndarray 2 2 [[1 / np_sum (map (fun s => 1 / s ^ 2) sx); 0];
                          [0; 1 / np_sum (map (fun s => 1 / s ^ 2) sy)]]).
Proof.
  intros HN Hy Hsx Hsy Hcxy Zc Psx Psy.
  assert (Hvalid : valid_input x y sx sy cxy).
  { repeat split; try assumption.
    eapply Forall_impl; [|exact Zc]. intros c ->. rewrite Rabs_R0. lra. }
  destruct (weighted_mean_twod_valid x y sx sy cxy Hvalid) as (Ha & Hdet & Hres).
  destruct (uncorrelated_sums x y sx sy cxy Hy Hsx Hsy Hcxy Zc Psx Psy)
    as (E00 & E01 & E11 & _ & _).
  rewrite Hres. clear Hres. rewrite E01 in *. rewrite <- E00, <- E11.
  set (a := normal_entry sx sy cxy (length x) 0 0) in *.
  set (d := normal_entry sx sy cxy (length x) 1 1) in *.
  assert (Hd : 0 < d) by nra.
  do 2 eexists. entrywise; try reflexivity; field; lra.
Qed.

Lemma weighted_mean_twod_uncorrelated_covw_witness :
  exists wx wy : R,
    weighted_mean_twod [1; 3] [2; 4] [1; 2] [1; 3] [0; 0]
    = Ok (wx, wy,
          mk_ndarray 2 2 [[1 / np_sum (map (fun s => 1 / s ^ 2) [1; 2]); 0];
                          [0; 1 / np_sum (map (fun s => 1 / s ^ 2) [1; 3])]]).
Proof.
  apply (weighted_mean_twod_uncorrelated_covw [1; 3] [2; 4] [1; 2] [1; 3] [0; 0]);
    try reflexivity; try (simpl; lia); repeat constructor; lra.
Defined.

(** ** No measurement *)

(** X17: with an empty [x] the loop does not run, the 2x2 normal matrix is
    zero and its inversion fails: [LinAlgError], whatever the other arrays
    hold. *)
Theorem weighted_mean_twod_no_points (y sx sy cxy : list R) :
  weighted_mean_twod [] y sx sy cxy = Raise LinAlgError.
Proof.
  rewrite (weighted_mean_twod_formula [] y sx sy cxy) by reflexivity.
  cbv zeta. unfold normal_entry. cbn [length seq map np_sum fold_right].
  destruct (Req_dec_T _ 0) as [_|Hne]; [reflexivity|].
  exfalso. apply Hne. ring.
Qed.

(** ** Repeated measurements *)

Lemma nth_repeat_in_range (v : R) (n i : nat) :
  (i < n)%nat -> nth i (repeat v n) 0 = v.
Proof.
  revert i. induction n as [|n IH]; intros i Hi; [lia|].
  destruct i as [|i]; [reflexivity|]. cbn [repeat nth]. apply IH. lia.
Qed.

Lemma np_sum_const (n : nat) (v : R) :
  np_sum (map (fun _ => v) (seq 0 n)) = INR n * v.
Proof.
  induction n as [|n IH]; [cbn; lra|].
  rewrite np_sum_snoc, IH, S_INR. lra.
Qed.

Lemma valid_input_repeat (n : nat) (x0 y0 s t c : R) :
  (1 <= n)%nat -> 0 < s -> 0 < t -> Rabs c < 1 ->
  valid_input (repeat x0 n) (repeat y0 n) (repeat s n) (repeat t n) (repeat c n).
Proof.
  intros Hn Hs Ht Hc. unfold valid_input. rewrite !repeat_length.
  repeat split; try lia; apply Forall_forall; intros v Hv;
    apply repeat_spec in Hv; now subst.
Qed.

(** X18: the same measurement [n] times: the mean is that measurement and the
    covariance is the measurement's covariance divided by [n]. *)
Theorem weighted_mean_twod_repeated (n : nat) (x0 y0 s t c : R) :
  (1 <= n)%nat -> 0 < s -> 0 < t -> Rabs c < 1 ->
  weighted_mean_twod (repeat x0 n) (repeat y0 n) (repeat s n) (repeat t n) (repeat c n)
  = Ok (x0, y0,
        mk_ndarray 2 2 [[s ^ 2 / INR n; c * s * t / INR n];
                        [c * s * t / INR n; t ^ 2 / INR n]]).
Proof.
  intros Hn Hs Ht Hc.
  destruct (weighted_mean_twod_valid _ _ _ _ _ (valid_input_repeat n x0 y0 s t c Hn Hs Ht Hc))
    as (_ & _ & ->).
  rewrite repeat_length.
  assert (HN : INR n <> 0) by (apply not_0_INR; lia).
  pose proof (pdet_pos s t c Hs Ht Hc) as Hpd. unfold pdet in Hpd.
  assert (Hpd' : (s * t) ^ 2 - s * t * c * (s * t * c) <> 0).
  { replace ((s * t) ^ 2) with (s ^ 2 * t ^ 2) by ring. lra. }
  assert (Hne : forall p q,
            normal_entry (repeat s n) (repeat t n) (repeat c n) n p q
            = INR n * entry (precision s t c) p q).
  { intros p q. unfold normal_entry. rewrite <- np_sum_const.
    apply np_sum_ext. intros i Hi. unfold prec_at.
    now rewrite !nth_repeat_in_range by exact Hi. }
  assert (Hre : forall p,
            rhs_entry (repeat x0 n) (repeat y0 n) (repeat s n) (repeat t n) (repeat c n) n p
            = INR n * (entry (precision s t c) p 0 * x0 + entry (precision s t c) p 1 * y0)).
  { intros p. unfold rhs_entry. rewrite <- np_sum_const.
    apply np_sum_ext. intros i Hi. unfold prec_at.
    now rewrite !nth_repeat_in_range by exact Hi. }
  assert (Hbig : INR n * t ^ 2 * (INR n * s ^ 2)
                 - INR n * - (s * t * c) * (INR n * - (s * t * c)) <> 0).
  { replace (INR n * t ^ 2 * (INR n * s ^ 2)
             - INR n * - (s * t * c) * (INR n * - (s * t * c)))
      with (INR n * INR n * (s ^ 2 * t ^ 2 - s * t * c * (s * t * c))) by ring.
    repeat apply Rmult_integral_contrapositive_currified; lra. }
  rewrite !Hne, !Hre. unfold precision. cbn [entry rows nth].
  entrywise; field; repeat split; assumption.
Qed.

Lemma weighted_mean_twod_repeated_witness :
  weighted_mean_twod (repeat 1 3) (repeat 2 3) (repeat 1 3) (repeat 2 3) (repeat (1 / 2) 3)
  = Ok (1, 2,
        mk_ndarray 2 2 [[1 ^ 2 / INR 3; 1 / 2 * 1 * 2 / INR 3];
                        [1 / 2 * 1 * 2 / INR 3; 2 ^ 2 / INR 3]]).
Proof.
  apply (weighted_mean_twod_repeated 3 1 2 1 2 (1 / 2)); try lia; try lra.
  apply Rabs_def1; lra.
Defined.

(** ** Rescaled uncertainties *)

Lemma pdet_scaled (k s t c : R) : pdet (k * s) (k * t) c = k ^ 4 * pdet s t c.
Proof. unfold pdet. ring. Qed.

Lemma precision_scaled (k s t c : R) (p q : nat) :
  k <> 0 -> pdet s t c <> 0 -> (p < 2)%nat -> (q < 2)%nat ->
  entry (precision (k * s) (k * t) c) p q = / k ^ 2 * entry (precision s t c) p q.
Proof.
  intros Hk Hpd Hp Hq. unfold pdet in Hpd.
  assert (Hpd' : (s * t) ^ 2 - s * t * c * (s * t * c) <> 0).
  { replace ((s * t) ^ 2) with (s ^ 2 * t ^ 2) by ring. exact Hpd. }
  unfold precision, entry. cbn [rows].
  assert (Hpk : (k * s * (k * t)) ^ 2 - k * s * (k * t) * c * (k * s * (k * t) * c) <> 0).
  { replace ((k * s * (k * t)) ^ 2 - k * s * (k * t) * c * (k * s * (k * t) * c))
      with (k ^ 4 * ((s * t) ^ 2 - s * t * c * (s * t * c))) by ring.
    apply Rmult_integral_contrapositive_currified; [|exact Hpd'].
    now apply pow_nonzero. }
  destruct p as [|[|p]]; [| |lia]; (destruct q as [|[|q]]; [| |lia]); cbn [nth].
  all: field; repeat split; assumption.
Qed.

(** X19: multiplying every uncertainty by [k] leaves the weighted mean as it is
    and multiplies its covariance by [k^2]. *)
Theorem weighted_mean_twod_rescaled
    (x y sx sy cxy : list R) (k wx wy : R) (covw : ndarray) :
  k <> 0 ->
  weighted_mean_twod x y sx sy cxy = Ok (wx, wy, covw) ->
  weighted_mean_twod x y (map (Rmult k) sx) (map (Rmult k) sy) cxy
  = Ok (wx, wy, np_scale (k ^ 2) covw).
Proof.
  intros Hk Hres.
  destruct (weighted_mean_twod_returns x y sx sy cxy wx wy covw Hres)
    as (Hchk & Hdet & -> & -> & ->).
  assert (Hpts : forall i, (i < length x)%nat ->
            (i < length y)%nat /\ (i < length sx)%nat /\ (i < length sy)%nat
            /\ (i < length cxy)%nat
            /\ pdet (nth i sx 0) (nth i sy 0) (nth i cxy 0) <> 0).
  { intros i Hi.
    apply (point_outcome_inversion x y sx sy cxy i).
    apply (check_points_all _ _ _ _ _ _ i Hchk). apply in_seq. lia. }
  assert (Hchk' : check_points x y (map (Rmult k) sx) (map (Rmult k) sy) cxy
                    (seq 0 (length x)) = Ok tt).
  { apply check_points_ok. intros i Hi. apply in_seq in Hi.
    destruct (Hpts i ltac:(lia)) as (Hy & Hsx & Hsy & Hcxy & Hpd).
    apply point_outcome_ok; rewrite ?length_map; try lia.
    rewrite !nth_map_in_range, pdet_scaled by assumption.
    apply Rmult_integral_contrapositive_currified; [|exact Hpd].
    now apply pow_nonzero. }
  assert (Hprec : forall i p q, (i < length x)%nat -> (p < 2)%nat -> (q < 2)%nat ->
            prec_at (map (Rmult k) sx) (map (Rmult k) sy) cxy i p q
            = / k ^ 2 * prec_at sx sy cxy i p q).
  { intros i p q Hi Hp Hq. destruct (Hpts i Hi) as (_ & Hsx & Hsy & _ & Hpd).
    unfold prec_at. rewrite !nth_map_in_range by assumption.
    now apply precision_scaled. }
  assert (Hne : forall p q, (p < 2)%nat -> (q < 2)%nat ->
            normal_entry (map (Rmult k) sx) (map (Rmult k) sy) cxy (length x) p q
            = / k ^ 2 * normal_entry sx sy cxy (length x) p q).
  { intros p q Hp Hq. unfold normal_entry. rewrite <- np_sum_scal.
    apply np_sum_ext. intros i Hi. now apply Hprec. }
  assert (Hre : forall p, (p < 2)%nat ->
            rhs_entry x y (map (Rmult k) sx) (map (Rmult k) sy) cxy (length x) p
            = / k ^ 2 * rhs_entry x y sx sy cxy (length x) p).
  { intros p Hp. unfold rhs_entry. rewrite <- np_sum_scal.
    apply np_sum_ext. intros i Hi. rewrite !Hprec by (assumption || lia). ring. }
  rewrite (weighted_mean_twod_formula _ _ _ _ _ Hchk'). cbv zeta.
  rewrite !Hne, !Hre by lia.
  set (a := normal_entry sx sy cxy (length x) 0 0) in *.
  set (b := normal_entry sx sy cxy (length x) 0 1) in *.
  set (d := normal_entry sx sy cxy (length x) 1 1) in *.
  assert (Hk2 : k ^ 2 <> 0) by now apply pow_nonzero.
  assert (Hdet' : / k ^ 2 * a * (/ k ^ 2 * d) - / k ^ 2 * b * (/ k ^ 2 * b) <> 0).
  { replace (/ k ^ 2 * a * (/ k ^ 2 * d) - / k ^ 2 * b * (/ k ^ 2 * b))
      with (/ k ^ 2 * / k ^ 2 * (a * d - b * b)) by ring.
    repeat apply Rmult_integral_contrapositive_currified;
      try apply Rinv_neq_0_compat; assumption. }
  destruct (Req_dec_T _ 0) as [E|_]; [contradiction|].
  unfold np_scale. cbn [nrows ncols rows map].
  entrywise; field; repeat split; assumption.
Qed.

Lemma weighted_mean_twod_rescaled_witness :
  weighted_mean_twod [1] [2] (map (Rmult 3) [1]) (map (Rmult 3) [2]) [1 / 2]
  = Ok (1, 2, np_scale (3 ^ 2) (point_cov 1 2 (1 / 2))).
Proof.
  apply (weighted_mean_twod_rescaled [1] [2] [1] [2] [1 / 2] 3); [lra|].
  apply weighted_mean_twod_single; lra.
Defined.

(** ** The mean is at least as precise as every measurement *)







(** ** The order of the measurements *)

Lemma np_sum_permutation (l l' : list R) : Permutation l l' -> np_sum l = np_sum l'.
Proof.
  induction 1 as [| a l l' _ IH | a b l | l l' l'' _ IH1 _ IH2];
    cbn [np_sum fold_right]; fold np_sum in *.
  - reflexivity.
  - fold (np_sum l). fold (np_sum l'). now rewrite IH.
  - lra.
  - now rewrite IH1.
Qed.

Lemma sum_over_measurements (ms : list measurement) (g : measurement -> R) :
  np_sum (map (fun i => g (nth i ms (mk_measurement 0 0 0 0 0))) (seq 0 (length ms)))
  = np_sum (map g ms).
Proof.
  f_equal. apply nth_ext with (d := 0) (d' := 0).
  - now rewrite !length_map, length_seq.
  - intros i Hi. rewrite length_map, length_seq in Hi.
    rewrite nth_map_seq by exact Hi. cbn [Nat.add].
    rewrite (nth_indep _ 0 (g (mk_measurement 0 0 0 0 0))) by now rewrite length_map.
    now rewrite map_nth.
Qed.

Lemma nth_column (ms : list measurement) (f : measurement -> R) (i : nat) :
  (i < length ms)%nat ->
  nth i (map f ms) 0 = f (nth i ms (mk_measurement 0 0 0 0 0)).
Proof.
  intros Hi.
  rewrite (nth_indep _ 0 (f (mk_measurement 0 0 0 0 0))) by now rewrite length_map.
  apply map_nth.
Qed.

Lemma measurements_checks (ms : list measurement) :
  check_points (map m_x ms) (map m_y ms) (map m_sx ms) (map m_sy ms) (map m_cxy ms)
               (seq 0 (length ms)) = Ok tt
  <-> Forall nonsingular ms.
Proof.
  split.
  - intros Hchk. apply Forall_nth. intros i d Hi.
    rewrite (nth_indep _ d (mk_measurement 0 0 0 0 0)) by exact Hi.
    pose proof (check_points_all _ _ _ _ _ _ i Hchk ltac:(apply in_seq; lia)) as Hpt.
    apply point_outcome_inversion in Hpt.
    destruct Hpt as (_ & _ & _ & _ & _ & Hpd).
    rewrite !nth_column in Hpd by exact Hi. exact Hpd.
  - intros Hns. apply check_points_ok. intros i Hi. apply in_seq in Hi.
    apply point_outcome_ok; rewrite ?length_map; try lia.
    rewrite !nth_column by lia.
    apply (proj1 (Forall_nth _ ms) Hns). lia.
Qed.

Lemma measurements_normal_entry (ms : list measurement) (p q : nat) :
  normal_entry (map m_sx ms) (map m_sy ms) (map m_cxy ms) (length ms) p q
  = np_sum (map (fun m => entry (precision (m_sx m) (m_sy m) (m_cxy m)) p q) ms).
Proof.
  rewrite <- sum_over_measurements. unfold normal_entry.
  apply np_sum_ext. intros i Hi. unfold prec_at. now rewrite !nth_column.
Qed.

Lemma measurements_rhs_entry (ms : list measurement) (p : nat) :
  rhs_entry (map m_x ms) (map m_y ms) (map m_sx ms) (map m_sy ms) (map m_cxy ms)
            (length ms) p
  = np_sum (map (fun m => entry (precision (m_sx m) (m_sy m) (m_cxy m)) p 0 * m_x m
                          + entry (precision (m_sx m) (m_sy m) (m_cxy m)) p 1 * m_y m)
                ms).
Proof.
  rewrite <- sum_over_measurements. unfold rhs_entry.
  apply np_sum_ext. intros i Hi. unfold prec_at. now rewrite !nth_column.
Qed.

(** X21: the measurements may come in any order: permuting the five arrays
    together changes neither the result nor the error. *)
Theorem weighted_mean_twod_order_irrelevant (ms ms' : list measurement) :
  Permutation ms ms' -> weighted_mean_of ms = weighted_mean_of ms'.
Proof.
  intros Hperm. unfold weighted_mean_of.
  rewrite !weighted_mean_twod_normal_form, !length_map.
  assert (Hns : Forall nonsingular ms <-> Forall nonsingular ms').
  { split; intros H; eapply Permutation_Forall; try exact H;
      [exact Hperm | now apply Permutation_sym]. }
  assert (Hsum : normal_sum (map m_sx ms) (map m_sy ms) (map m_cxy ms) (length ms)
                 = normal_sum (map m_sx ms') (map m_sy ms') (map m_cxy ms') (length ms')
                 /\ rhs_sum (map m_x ms) (map m_y ms) (map m_sx ms) (map m_sy ms)
                      (map m_cxy ms) (length ms)
                    = rhs_sum (map m_x ms') (map m_y ms') (map m_sx ms') (map m_sy ms')
                        (map m_cxy ms') (length ms')).
  { split.
    - unfold normal_sum. apply tab_ext. intros p q _ _.
      rewrite !measurements_normal_entry.
      apply np_sum_permutation. now apply Permutation_map.
    - unfold rhs_sum. apply tab1_ext. intros p _.
      rewrite !measurements_rhs_entry.
      apply np_sum_permutation. now apply Permutation_map. }
  destruct Hsum as [-> ->].
  destruct (check_points_singular (map m_x ms) (map m_y ms) (map m_sx ms)
              (map m_sy ms) (map m_cxy ms) (seq 0 (length (map m_x ms))))
    as [Hok|Hfail]; rewrite ?length_map; try reflexivity.
  { intros k Hk. apply in_seq in Hk. lia. }
  - rewrite length_map in Hok. rewrite Hok.
    rewrite (proj2 (measurements_checks ms'));
      [reflexivity | apply Hns, measurements_checks, Hok].
  - rewrite length_map in Hfail. rewrite Hfail.
    destruct (check_points_singular (map m_x ms') (map m_y ms') (map m_sx ms')
                (map m_sy ms') (map m_cxy ms') (seq 0 (length (map m_x ms'))))
      as [Hok'|Hfail']; rewrite ?length_map; try reflexivity.
    { intros k Hk. apply in_seq in Hk. lia. }
    + rewrite length_map in Hok'.
      apply measurements_checks, Hns, measurements_checks in Hok'.
      rewrite Hok' in Hfail. discriminate.
    + rewrite length_map in Hfail'. now rewrite Hfail'.
Qed.

Lemma weighted_mean_twod_order_irrelevant_witness :
  weighted_mean_of [mk_measurement 1 2 1 1 0; mk_measurement 3 4 2 3 (1 / 2)]
  = weighted_mean_of [mk_measurement 3 4 2 3 (1 / 2); mk_measurement 1 2 1 1 0].
Proof.
  apply weighted_mean_twod_order_irrelevant. apply perm_swap.
Defined.

(** ** The weighted mean minimises the chi-square *)

Lemma chi_square_expand (x y sx sy cxy : list R) (n : nat) (u v : R) :
  np_sum (map (fun i =>
                 quadratic_form (precision (nth i sx 0) (nth i sy 0) (nth i cxy 0))
                                (nth i x 0 - u) (nth i y 0 - v))
              (seq 0 n))
  = np_sum (map (fun i =>
                   quadratic_form (precision (nth i sx 0) (nth i sy 0) (nth i cxy 0))
                                  (nth i x 0) (nth i y 0))
                (seq 0 n))
    - 2 * (u * rhs_entry x y sx sy cxy n 0 + v * rhs_entry x y sx sy cxy n 1)
    + (u * (normal_entry sx sy cxy n 0 0 * u + normal_entry sx sy cxy n 0 1 * v)
       + v * (normal_entry sx sy cxy n 0 1 * u + normal_entry sx sy cxy n 1 1 * v)).
Proof.
  unfold rhs_entry, normal_entry.
  induction n as [|n IH]; [cbn; lra|].
  rewrite !np_sum_snoc, IH.
  unfold quadratic_form, prec_at, precision. cbn [entry rows nth]. ring.
Qed.

(** X22: on a valid input no candidate mean has a smaller chi-square than the
    returned [(wx, wy)]. *)
Theorem weighted_mean_twod_minimises_chi_square (x y sx sy cxy : list R) :
  valid_input x y sx sy cxy ->
  exists (wx wy : R) (covw : ndarray),
    weighted_mean_twod x y sx sy cxy = Ok (wx, wy, covw)
    /\ forall u v : R,
         chi_square x y sx sy cxy wx wy <= chi_square x y sx sy cxy u v.
Proof.
  intros Hvalid.
  destruct (weighted_mean_twod_valid x y sx sy cxy Hvalid) as (Ha & Hdet & Hres).
  do 3 eexists. split; [exact Hres|].
  intros u v. unfold chi_square. rewrite !chi_square_expand.
  set (a := normal_entry sx sy cxy (length x) 0 0) in *.
  set (b := normal_entry sx sy cxy (length x) 0 1) in *.
  set (d := normal_entry sx sy cxy (length x) 1 1) in *.
  set (r0 := rhs_entry x y sx sy cxy (length x) 0).
  set (r1 := rhs_entry x y sx sy cxy (length x) 1).
  set (wx := d / (a * d - b * b) * r0 + (- b / (a * d - b * b) * r1 + 0)).
  set (wy := - b / (a * d - b * b) * r0 + (a / (a * d - b * b) * r1 + 0)).
  assert (Hr0 : r0 = a * wx + b * wy) by (unfold wx, wy; field; lra).
  assert (Hr1 : r1 = b * wx + d * wy) by (unfold wx, wy; field; lra).
  clearbody wx wy r0 r1. subst r0 r1.
  assert (Hgap : 0 <= (u - wx) * (a * (u - wx) + b * (v - wy))
                      + (v - wy) * (b * (u - wx) + d * (v - wy))).
  { set (du := u - wx). set (dv := v - wy).
    assert (E : a * (du * (a * du + b * dv) + dv * (b * du + d * dv))
                = (a * du + b * dv) ^ 2 + (a * d - b * b) * dv ^ 2) by ring.
    assert (0 <= (a * du + b * dv) ^ 2 + (a * d - b * b) * dv ^ 2).
    { apply Rplus_le_le_0_compat; [apply pow2_ge_0|].
      apply Rmult_le_pos; [lra | apply pow2_ge_0]. }
    destruct (Rle_or_lt 0 (du * (a * du + b * dv) + dv * (b * du + d * dv)))
      as [Hle|Hlt]; [exact Hle|].
    exfalso.
    assert (a * (du * (a * du + b * dv) + dv * (b * du + d * dv)) < 0) by nra.
    lra. }
  lra.
Qed.

Lemma weighted_mean_twod_minimises_chi_square_witness :
  exists (wx wy : R) (covw : ndarray),
    weighted_mean_twod [1; 3] [2; 4] [1; 2] [1; 3] [1 / 2; - (1 / 3)] = Ok (wx, wy, covw)
    /\ forall u v : R,
         chi_square [1; 3] [2; 4] [1; 2] [1; 3] [1 / 2; - (1 / 3)] wx wy
         <= chi_square [1; 3] [2; 4] [1; 2] [1; 3] [1 / 2; - (1 / 3)] u v.
Proof.
  apply (weighted_mean_twod_minimises_chi_square [1; 3] [2; 4] [1; 2] [1; 3]
           [1 / 2; - (1 / 3)]).
  unfold valid_input.
  repeat split; try reflexivity; try (simpl; lia);
    repeat constructor; try lra; apply Rabs_def1; lra.
Defined.
